(** * SkRateLimiterService: leaky-bucket and min-interval rate limiting

    A shallow embedding of
    [packages/backend/src/server/api/SkRateLimiterService.ts].

    - JavaScript numbers are modelled by [number]: an exact rational, the two
      infinities, or NaN.  Arithmetic on finite values is exact (no binary
      rounding, no overflow, no signed zero); the non-finite cases follow
      IEEE-754 as JavaScript exposes it.  The model and the code agree where
      the code's arithmetic is exact, as it is on integers up to [2^53 - 1].
    - An [async] function is a tree of Redis commands ([Async]); running it
      against a [Redis] state yields its result, the new data and the list of
      commands that were issued.
    - [Promise.all] interleaves the commands of its promises the way the
      event loop does on one Redis connection. *)

From Stdlib Require Import ZArith QArith Qround Qcanon Bool List Lia.
From stdpp Require Import base option list gmap strings.

Local Open Scope Z_scope.

(** ** JavaScript numbers *)

Inductive number : Type :=
| NaN
| NegInfinity
| Infinity
| Fin (q : Q).

(** The result of an arithmetic operation, in lowest terms. *)
Definition fin (q : Q) : number := Fin (Qred q).

Definition of_Z (z : Z) : number := Fin (inject_Z z).

Coercion of_Z : Z >-> number.

Definition isFinite (a : number) : bool :=
  match a with Fin _ => true | _ => false end.

(** Sign of a number as a [comparison] with zero ([Eq] for zero and NaN). *)
Definition sgn (a : number) : comparison :=
  match a with
  | NaN => Eq
  | NegInfinity => Lt
  | Infinity => Gt
  | Fin q => (q ?= 0)%Q
  end.

Definition sgn_mul (x y : comparison) : comparison :=
  match x, y with
  | Eq, _ | _, Eq => Eq
  | Lt, Lt | Gt, Gt => Gt
  | _, _ => Lt
  end.

(** An infinity of the given sign; a zero sign is the invalid operation. *)
Definition inf_of (s : comparison) : number :=
  match s with Eq => NaN | Lt => NegInfinity | Gt => Infinity end.

Definition add (a b : number) : number :=
  match a, b with
  | NaN, _ | _, NaN => NaN
  | Fin p, Fin q => fin (p + q)
  | Infinity, NegInfinity | NegInfinity, Infinity => NaN
  | Infinity, _ | _, Infinity => Infinity
  | NegInfinity, _ | _, NegInfinity => NegInfinity
  end.

Definition sub (a b : number) : number :=
  match a, b with
  | NaN, _ | _, NaN => NaN
  | Fin p, Fin q => fin (p - q)
  | Infinity, Infinity | NegInfinity, NegInfinity => NaN
  | Infinity, _ | _, NegInfinity => Infinity
  | NegInfinity, _ | _, Infinity => NegInfinity
  end.

Definition mul (a b : number) : number :=
  match a, b with
  | NaN, _ | _, NaN => NaN
  | Fin p, Fin q => fin (p * q)
  | _, _ => inf_of (sgn_mul (sgn a) (sgn b))
  end.

(** Division; a zero divisor counts as +0. *)
Definition div (a b : number) : number :=
  match a, b with
  | NaN, _ | _, NaN => NaN
  | Fin p, Fin q =>
      if Qeq_bool q 0 then inf_of (p ?= 0)%Q else fin (p / q)
  | Fin _, _ => Fin 0
  | _, Fin q => inf_of (sgn_mul (sgn a) (if Qle_bool 0 q then Gt else Lt))
  | _, _ => NaN
  end.

(** [a <= b]; every comparison with NaN is false. *)
Definition leb (a b : number) : bool :=
  match a, b with
  | NaN, _ | _, NaN => false
  | Fin p, Fin q => Qle_bool p q
  | NegInfinity, _ | _, Infinity => true
  | _, _ => false
  end.

Definition geb (a b : number) : bool := leb b a.
Definition ltb (a b : number) : bool := leb a b && negb (leb b a).
Definition gtb (a b : number) : bool := ltb b a.

(** [!!a] *)
Definition truthy (a : number) : bool :=
  match a with
  | NaN => false
  | Fin q => negb (Qeq_bool q 0)
  | _ => true
  end.

Definition Math_floor (a : number) : number :=
  match a with Fin q => of_Z (Qfloor q) | _ => a end.

Definition Math_ceil (a : number) : number :=
  match a with Fin q => of_Z (Qceiling q) | _ => a end.

(** Nearest integer, a tie going up. *)
Definition Math_round (a : number) : number :=
  match a with Fin q => of_Z (Qfloor (q + (1 # 2))) | _ => a end.

Definition Math_max (a b : number) : number :=
  match a, b with
  | NaN, _ | _, NaN => NaN
  | _, _ => if leb a b then b else a
  end.

Definition Math_min (a b : number) : number :=
  match a, b with
  | NaN, _ | _, NaN => NaN
  | _, _ => if leb a b then a else b
  end.

Definition Number_MAX_SAFE_INTEGER : number := of_Z (2 ^ 53 - 1).

Declare Scope js_scope.
Delimit Scope js_scope with js.
Bind Scope js_scope with number.
Infix "+" := add : js_scope.
Infix "-" := sub : js_scope.
Infix "*" := mul : js_scope.
Infix "/" := div : js_scope.
Infix ">=" := geb : js_scope.
Infix ">" := gtb : js_scope.
Infix "<" := ltb : js_scope.

(** [a ?? b] on a possibly missing value. *)
Definition nullish {A} (a : option A) (b : A) : A :=
  match a with Some x => x | None => b end.
Infix "??" := nullish (at level 45, left associativity) : js_scope.

(** A missing operand of an arithmetic operator converts to NaN. *)
Definition ToNumber (a : option number) : number := nullish a NaN.

(** [!!a] for an optional number: [undefined] is falsy. *)
Definition truthy_opt (a : option number) : bool :=
  match a with Some x => truthy x | None => false end.

(** ** Data model *)

(** [LimitInfo]: metadata about the current status of a rate limiter. *)
Record LimitInfo : Type := mkLimitInfo {
  blocked : bool;
  remaining : number;
  resetSec : number;
  resetMs : number;
  fullResetSec : number;
  fullResetMs : number;
}.

(** [RateLimit]: a leaky bucket; its [type] is the constant ['bucket']. *)
Record RateLimit : Type := mkRateLimit {
  key : string;
  size : number;
  dripRate : option number;
  dripSize : option number;
}.

(** The [type] of a legacy rule: [undefined] or ['legacy']. *)
Inductive LegacyType : Type := type_undefined | type_legacy.

(** Modelled from the spec: the fields of [IEndpointMeta['limit']], declared
    in [endpoints.ts]: optional [duration], [max] and [minInterval].
    [LegacyRateLimit] adds a mandatory [key] and the [type] above. *)
Record LegacyRateLimit : Type := mkLegacyRateLimit {
  legacy_key : string;
  legacy_type : LegacyType;
  duration : option number;
  max : option number;
  minInterval : option number;
}.

Inductive SupportedRateLimit : Type :=
| Bucket (limit : RateLimit)
| Legacy (limit : LegacyRateLimit).

Inductive LimitType : Type := is_bucket | is_legacy.

(** [limit.type], which a legacy rule may leave undefined. *)
Definition type (limit : SupportedRateLimit) : option LimitType :=
  match limit with
  | Bucket _ => Some is_bucket
  | Legacy l =>
      match legacy_type l with
      | type_undefined => None
      | type_legacy => Some is_legacy
      end
  end.

Definition limit_key (limit : SupportedRateLimit) : string :=
  match limit with
  | Bucket l => key l
  | Legacy l => legacy_key l
  end.

Definition isLegacyRateLimit (limit : SupportedRateLimit) : bool :=
  match type limit with
  | None | Some is_legacy => true
  | Some is_bucket => false
  end.

Definition hasMinLimit (limit : LegacyRateLimit) : bool :=
  truthy_opt (minInterval limit).

(** [LimitCounter]: timestamp [t] and counter [c]. *)
Record LimitCounter : Type := mkLimitCounter {
  t : number;
  c : number;
}.

(** ** The Redis connection *)

(** A number inside the stored JSON text: [JSON.stringify] prints NaN and the
    infinities as [null]. *)
Inductive JsonNumber : Type :=
| JNull
| JNum (q : Q).

(** The JSON text of a counter, [{"t":..,"c":..}]. *)
Record JsonCounter : Type := mkJsonCounter {
  json_t : JsonNumber;
  json_c : JsonNumber;
}.

Definition stringify_number (a : number) : JsonNumber :=
  match a with Fin q => JNum (Qred q) | _ => JNull end.

(** A field of the parsed counter, as a number.  [JSON.parse] gives [null]
    for a stored [null]; every use the limiters make of a counter field is
    arithmetic or a comparison, where [null] converts to 0, and that
    conversion is applied here, once, when the field is read. *)
Definition parse_number (j : JsonNumber) : number :=
  match j with JNum q => Fin q | JNull => 0 end.

Definition JSON_stringify (counter : LimitCounter) : JsonCounter :=
  {| json_t := stringify_number (t counter);
     json_c := stringify_number (c counter) |}.

Definition JSON_parse (value : JsonCounter) : LimitCounter :=
  {| t := parse_number (json_t value); c := parse_number (json_c value) |}.

(** A stored value with the expiry given to [SET key value PX ms]. *)
Record Entry : Type := mkEntry {
  value : JsonCounter;
  px : number;
}.

Inductive Command : Type :=
| GET (k : string)
| SET (k : string) (v : JsonCounter) (expirationMs : number).

(** Modelled from the spec: the counter store behind [redisClient], a
    key-value service with [get] and [set] with expiry.  The state is the
    stored data and the commands received, oldest first.  Every [SET] is
    applied; the store does not drop a key on its own between two
    commands. *)
Record Redis : Type := mkRedis {
  data : gmap string Entry;
  commands : list Command;
}.

Definition redis_get (k : string) (r : Redis) : option JsonCounter * Redis :=
  (value <$> data r !! k,
   {| data := data r; commands := commands r ++ [GET k] |}).

Definition redis_set (k : string) (v : JsonCounter) (ms : number) (r : Redis)
  : Redis :=
  {| data := <[k := mkEntry v ms]> (data r);
     commands := commands r ++ [SET k v ms] |}.

(** ** Asynchronous computations *)

(** An [async] function up to its result: [Get] sends a [GET] and suspends
    until the reply; [Set_] sends a [SET] and goes on without waiting. *)
Inductive Async (A : Type) : Type :=
| Return (a : A)
| Get (k : string) (cont : option JsonCounter -> Async A)
| Set_ (k : string) (v : JsonCounter) (expirationMs : number) (cont : Async A).
Arguments Return {A} a.
Arguments Get {A} k cont.
Arguments Set_ {A} k v expirationMs cont.

Fixpoint bind {A B} (p : Async A) (f : A -> Async B) : Async B :=
  match p with
  | Return a => f a
  | Get k cont => Get k (fun reply => bind (cont reply) f)
  | Set_ k v ms cont => Set_ k v ms (bind cont f)
  end.

Definition map_async {A B} (f : A -> B) (p : Async A) : Async B :=
  bind p (fun a => Return (f a)).

#[global] Instance Async_ret : MRet Async := fun _ a => Return a.
#[global] Instance Async_bind : MBind Async := fun _ _ f p => bind p f.
#[global] Instance Async_fmap : FMap Async := fun _ _ f p => map_async f p.

Fixpoint run {A} (p : Async A) (r : Redis) : A * Redis :=
  match p with
  | Return a => (a, r)
  | Get k cont => let '(reply, r') := redis_get k r in run (cont reply) r'
  | Set_ k v ms cont => run cont (redis_set k v ms r)
  end.

(** Two promises awaited together.  The first runs to its first [await],
    then the second does; replies arrive in the order the requests were
    sent, so the first resumes before the second. *)
Fixpoint Promise_all2 {A B} (p : Async A) : Async B -> Async (A * B) :=
  match p with
  | Return a => fun q => map_async (pair a) q
  | Set_ k v ms cont => fun q => Set_ k v ms (Promise_all2 cont q)
  | Get k cont => fun q =>
      Get k (fun reply =>
        (fix resume (q : Async B) : Async (A * B) :=
           match q with
           | Return b => map_async (fun a => (a, b)) (cont reply)
           | Set_ k' v' ms' cont' => Set_ k' v' ms' (resume cont')
           | Get k' cont' =>
               Get k' (fun reply' => Promise_all2 (cont reply) (cont' reply'))
           end) q)
  end.

(** [Promise.all] over the array of promises; the order of commands is that
    of the event loop for up to two promises, which is all [limitLegacy]
    ever collects. *)
Fixpoint Promise_all {A} (promises : list (Async A)) : Async (list A) :=
  match promises with
  | [] => Return []
  | p :: rest =>
      map_async (fun '(a, l) => a :: l) (Promise_all2 p (Promise_all rest))
  end.

(** ** The service *)

(** Modelled from the spec: what a call reads from [this] and is declared
    outside this file: the process-wide [disabled] flag inherited from
    [RateLimiterService], and the injected clock [timeService.now], in
    milliseconds, which stands still for the duration of one call. *)
Record SkRateLimiterService : Type := mkService {
  disabled : bool;
  now : number;
}.

(** [if (subject)]: neither undefined nor the empty string. *)
Definition truthy_string (s : option string) : bool :=
  match s with
  | Some s => negb (String.eqb s "")
  | None => false
  end.

Definition createLimitKey (limit : SupportedRateLimit) (actor : string)
    (subject : option string) : string :=
  if truthy_string subject then
    "rl_" +:+ actor +:+ "_" +:+ limit_key limit +:+ "_" +:+ (subject ?? "")%js
  else
    "rl_" +:+ actor +:+ "_" +:+ limit_key limit.

Definition getLimitCounter (limit : SupportedRateLimit) (actor : string)
    (subject : option string) : Async LimitCounter :=
  let key := createLimitKey limit actor subject in
  value ← Get key Return;
  match value with
  | None => mret {| t := 0; c := 0 |}
  | Some value => mret (JSON_parse value)
  end.

Definition setLimitCounter (limit : SupportedRateLimit) (actor : string)
    (counter : LimitCounter) (expirationMs : number)
    (subject : option string) : Async unit :=
  let key := createLimitKey limit actor subject in
  let value := JSON_stringify counter in
  Set_ key value expirationMs (Return tt).

Definition limitMin (this : SkRateLimiterService) (limit : LegacyRateLimit)
    (actor : string) (factor : number) : Async (option LimitInfo) :=
  counter ← getLimitCounter (Legacy limit) actor (Some "min");
  let maxCalls := Math_max (Math_ceil factor) 1 in
  (* Update expiration *)
  let counter :=
    if (c counter >= maxCalls)%js then
      let isCleared :=
        (now this - t counter >= ToNumber (minInterval limit))%js in
      if isCleared then {| t := t counter; c := 0 |} else counter
    else counter in
  let blocked := (c counter >= maxCalls)%js in
  let counter :=
    if negb blocked then {| t := now this; c := (c counter + 1)%js |}
    else counter in
  (* Calculate limit status *)
  let remaining := Math_max (maxCalls - c counter)%js 0 in
  let fullResetMs :=
    Math_max
      (Math_ceil (ToNumber (minInterval limit) - (now this - t counter))%js)
      0 in
  let fullResetSec := Math_ceil (fullResetMs / 1000)%js in
  let resetMs := if (remaining < 1)%js then fullResetMs else of_Z 0 in
  let resetSec := if (remaining < 1)%js then fullResetSec else of_Z 0 in
  let limitInfo :=
    {| blocked := blocked; remaining := remaining;
       resetSec := resetSec; resetMs := resetMs;
       fullResetSec := fullResetSec; fullResetMs := fullResetMs |} in
  (* Update the limit counter, but not if blocked *)
  if negb blocked then
    setLimitCounter (Legacy limit) actor counter resetMs (Some "min");;
    mret (Some limitInfo)
  else
    mret (Some limitInfo).

Definition limitBucket (this : SkRateLimiterService) (limit : RateLimit)
    (actor : string) (factor : number) : Async LimitInfo :=
  counter ← getLimitCounter (Bucket limit) actor None;
  let dripRate := (dripRate limit ?? of_Z 1000)%js in
  let dripSize := (dripSize limit ?? of_Z 1)%js in
  let bucketSize := (size limit * factor)%js in
  (* Update drips *)
  let counter :=
    if (c counter > 0)%js then
      let dripsSinceLastTick :=
        (Math_floor ((now this - t counter) / dripRate) * dripSize)%js in
      {| t := t counter;
         c := Math_max (c counter - dripsSinceLastTick)%js 0 |}
    else counter in
  let blocked := (c counter >= bucketSize)%js in
  let counter :=
    if negb blocked then {| t := now this; c := (c counter + 1)%js |}
    else counter in
  (* Calculate limit status *)
  let remaining := Math_max (bucketSize - c counter)%js 0 in
  let resetMs :=
    if (remaining > 0)%js then of_Z 0
    else Math_max (dripRate - (now this - t counter))%js 0 in
  let resetSec := Math_ceil (resetMs / 1000)%js in
  let fullResetMs := (Math_ceil (c counter / dripSize) * dripRate)%js in
  let fullResetSec := Math_ceil (fullResetMs / 1000)%js in
  let limitInfo :=
    {| blocked := blocked; remaining := remaining;
       resetSec := resetSec; resetMs := resetMs;
       fullResetSec := fullResetSec; fullResetMs := fullResetMs |} in
  (* Update the limit counter, but not if blocked *)
  if negb blocked then
    setLimitCounter (Bucket limit) actor counter fullResetMs None;;
    mret limitInfo
  else
    mret limitInfo.

(** [a || b] on possibly missing booleans: [a] if it is truthy, else [b]. *)
Definition js_or (a b : option bool) : option bool :=
  match a with
  | Some true => a
  | _ => b
  end.

Definition limitLegacy (this : SkRateLimiterService) (limit : LegacyRateLimit)
    (actor : string) (factor : number) : Async LimitInfo :=
  let promises : list (Async (option LimitInfo)) := [] in
  (* The "min" limit - if present - is handled directly. *)
  let promises :=
    if hasMinLimit limit then
      promises ++ [limitMin this limit actor factor]
    else promises in
  (* Convert the "max" limit into a leaky bucket with 1 drip / second rate. *)
  let promises :=
    if truthy_opt (max limit) && truthy_opt (duration limit) then
      promises ++ [Some <$> limitBucket this
        {| key := legacy_key limit;
           size := ToNumber (max limit);
           dripRate :=
             Some (Math_round
                     (ToNumber (duration limit) / ToNumber (max limit))%js);
           dripSize := None |} actor factor]
    else promises in
  lims ← Promise_all promises;
  let lim1 : option LimitInfo := mjoin (lims !! 0%nat) in
  let lim2 : option LimitInfo := mjoin (lims !! 1%nat) in
  mret
    {| blocked := (js_or (blocked <$> lim1) (blocked <$> lim2) ?? false)%js;
       remaining :=
         Math_min ((remaining <$> lim1) ?? of_Z 1)%js
                  ((remaining <$> lim2) ?? of_Z 1)%js;
       resetSec :=
         Math_max ((resetSec <$> lim1) ?? of_Z 0)%js
                  ((resetSec <$> lim2) ?? of_Z 0)%js;
       resetMs :=
         Math_max ((resetMs <$> lim1) ?? of_Z 0)%js
                  ((resetMs <$> lim2) ?? of_Z 0)%js;
       fullResetSec :=
         Math_max ((fullResetSec <$> lim1) ?? of_Z 0)%js
                  ((fullResetSec <$> lim2) ?? of_Z 0)%js;
       fullResetMs :=
         Math_max ((fullResetMs <$> lim1) ?? of_Z 0)%js
                  ((fullResetMs <$> lim2) ?? of_Z 0)%js |}.

(** [factor] defaults to 1.  The type guard [isLegacyRateLimit] is the
    case distinction on the rule (see [isLegacyRateLimit_Legacy]). *)
Definition limit (this : SkRateLimiterService) (limit : SupportedRateLimit)
    (actor : string) (factor : option number) : Async LimitInfo :=
  let factor := (factor ?? of_Z 1)%js in
  if disabled this then
    mret
      {| blocked := false;
         remaining := Number_MAX_SAFE_INTEGER;
         resetSec := 0; resetMs := 0; fullResetSec := 0; fullResetMs := 0 |}
  else
    match limit with
    | Legacy limit => limitLegacy this limit actor factor
    | Bucket limit => limitBucket this limit actor factor
    end.

(** ** Calls in sequence *)

(** Calls made one after the other on the same connection: the write of a
    call is applied before the next call reads. *)
Fixpoint successive {A} (n : nat) (call : Async A) (r : Redis)
  : list A * Redis :=
  match n with
  | O => ([], r)
  | S n =>
      let '(a, r1) := run call r in
      let '(l, r2) := successive n call r1 in
      (a :: l, r2)
  end.

(** The keys of the [GET] commands, the counters of the [SET] commands and
    the key of any command. *)
Definition gets (cmds : list Command) : list string :=
  omap (fun cmd => match cmd with GET k => Some k | SET _ _ _ => None end) cmds.

Definition sets (cmds : list Command) : list JsonCounter :=
  omap (fun cmd => match cmd with GET _ => None | SET _ v _ => Some v end) cmds.

Definition command_key (cmd : Command) : string :=
  match cmd with GET k => k | SET k _ _ => k end.

(** ** The decisions of the two limiters as functions of the counter read

    The stages of [limitBucket] and [limitMin] between the read and the
    write, named so that proofs can follow them one at a time;
    [limitBucket_eq] and [limitMin_eq] show that they are the code. *)

Definition counter_of (reply : option JsonCounter) : LimitCounter :=
  match reply with
  | None => {| t := 0; c := 0 |}
  | Some v => JSON_parse v
  end.

Definition read_counter (k : string) (r : Redis) : LimitCounter :=
  counter_of (value <$> data r !! k).

Definition bump (this : SkRateLimiterService) (counter : LimitCounter)
  : LimitCounter :=
  {| t := now this; c := (c counter + 1)%js |}.

Section bucket_stages.
Variable this : SkRateLimiterService.
Variable limit : RateLimit.
Variable factor : number.

Definition drip (counter : LimitCounter) : LimitCounter :=
  if (c counter > 0)%js then
    {| t := t counter;
       c := Math_max
              (c counter -
               Math_floor ((now this - t counter) / (dripRate limit ?? 1000))
               * (dripSize limit ?? 1))%js 0 |}
  else counter.

Definition bucket_blocked (counter : LimitCounter) : bool :=
  (c (drip counter) >= size limit * factor)%js.

Definition bucket_next (counter : LimitCounter) : LimitCounter :=
  if negb (bucket_blocked counter) then bump this (drip counter)
  else drip counter.

Definition bucket_remaining (counter : LimitCounter) : number :=
  Math_max (size limit * factor - c (bucket_next counter))%js 0.

Definition bucket_resetMs (counter : LimitCounter) : number :=
  if (bucket_remaining counter > 0)%js then of_Z 0
  else Math_max
         ((dripRate limit ?? 1000) - (now this - t (bucket_next counter)))%js
         0.

Definition bucket_fullResetMs (counter : LimitCounter) : number :=
  (Math_ceil (c (bucket_next counter) / (dripSize limit ?? 1))
   * (dripRate limit ?? 1000))%js.

Definition bucket_info (counter : LimitCounter) : LimitInfo :=
  {| blocked := bucket_blocked counter;
     remaining := bucket_remaining counter;
     resetSec := Math_ceil (bucket_resetMs counter / 1000)%js;
     resetMs := bucket_resetMs counter;
     fullResetSec := Math_ceil (bucket_fullResetMs counter / 1000)%js;
     fullResetMs := bucket_fullResetMs counter |}.
End bucket_stages.

Section min_stages.
Variable this : SkRateLimiterService.
Variable limit : LegacyRateLimit.
Variable factor : number.

Definition maxCalls : number := Math_max (Math_ceil factor) 1.

Definition expire (counter : LimitCounter) : LimitCounter :=
  if (c counter >= maxCalls)%js then
    if (now this - t counter >= ToNumber (minInterval limit))%js
    then {| t := t counter; c := 0 |} else counter
  else counter.

Definition min_blocked (counter : LimitCounter) : bool :=
  (c (expire counter) >= maxCalls)%js.

Definition min_next (counter : LimitCounter) : LimitCounter :=
  if negb (min_blocked counter) then bump this (expire counter)
  else expire counter.

Definition min_remaining (counter : LimitCounter) : number :=
  Math_max (maxCalls - c (min_next counter))%js 0.

Definition min_fullResetMs (counter : LimitCounter) : number :=
  Math_max
    (Math_ceil
       (ToNumber (minInterval limit) - (now this - t (min_next counter)))%js)
    0.

Definition min_resetMs (counter : LimitCounter) : number :=
  if (min_remaining counter < 1)%js then min_fullResetMs counter else of_Z 0.

Definition min_info (counter : LimitCounter) : LimitInfo :=
  {| blocked := min_blocked counter;
     remaining := min_remaining counter;
     resetSec :=
       if (min_remaining counter < 1)%js
       then Math_ceil (min_fullResetMs counter / 1000)%js else of_Z 0;
     resetMs := min_resetMs counter;
     fullResetSec := Math_ceil (min_fullResetMs counter / 1000)%js;
     fullResetMs := min_fullResetMs counter |}.
End min_stages.

(** A computation that sends no further [GET]: it runs to its end without
    suspending. *)
Fixpoint no_get {A} (p : Async A) : Prop :=
  match p with
  | Return _ => True
  | Get _ _ => False
  | Set_ _ _ _ cont => no_get cont
  end.

(** The continuation of [await getLimitCounter(..)]. *)
Definition await_counter {A} (K : LimitCounter -> Async A)
    (reply : option JsonCounter) : Async A :=
  match reply with
  | None => mret {| t := 0; c := 0 |}
  | Some value => mret (JSON_parse value)
  end ≫= K.

Definition bucket_k this limit actor factor (counter : LimitCounter)
  : Async LimitInfo :=
  if negb (bucket_blocked this limit factor counter) then
    setLimitCounter (Bucket limit) actor (bucket_next this limit factor counter)
      (bucket_fullResetMs this limit factor counter) None;;
    mret (bucket_info this limit factor counter)
  else mret (bucket_info this limit factor counter).

Definition min_k this limit actor factor (counter : LimitCounter)
  : Async (option LimitInfo) :=
  if negb (min_blocked this limit factor counter) then
    setLimitCounter (Legacy limit) actor (min_next this limit factor counter)
      (min_resetMs this limit factor counter) (Some "min");;
    mret (Some (min_info this limit factor counter))
  else mret (Some (min_info this limit factor counter)).

(** What the decision leaves behind: the [SET], unless blocked. *)
Definition after_call (k : string) (is_blocked : bool) (counter : LimitCounter)
    (ms : number) (r : Redis) : Redis :=
  if is_blocked then r else redis_set k (JSON_stringify counter) ms r.

(** ** Legacy limits *)

(** The bucket [limitLegacy] builds from [max] and [duration]. *)
Definition legacy_bucket (l : LegacyRateLimit) : RateLimit :=
  {| key := legacy_key l;
     size := ToNumber (max l);
     dripRate :=
       Some (Math_round (ToNumber (duration l) / ToNumber (max l))%js);
     dripSize := None |}.

(** [limit.max && limit.duration] *)
Definition hasMaxLimit (l : LegacyRateLimit) : bool :=
  truthy_opt (max l) && truthy_opt (duration l).

(** The merge at the end of [limitLegacy]. *)
Definition merge (lim1 lim2 : option LimitInfo) : LimitInfo :=
  {| blocked := (js_or (blocked <$> lim1) (blocked <$> lim2) ?? false)%js;
     remaining :=
       Math_min ((remaining <$> lim1) ?? of_Z 1)%js
                ((remaining <$> lim2) ?? of_Z 1)%js;
     resetSec :=
       Math_max ((resetSec <$> lim1) ?? of_Z 0)%js
                ((resetSec <$> lim2) ?? of_Z 0)%js;
     resetMs :=
       Math_max ((resetMs <$> lim1) ?? of_Z 0)%js
                ((resetMs <$> lim2) ?? of_Z 0)%js;
     fullResetSec :=
       Math_max ((fullResetSec <$> lim1) ?? of_Z 0)%js
                ((fullResetSec <$> lim2) ?? of_Z 0)%js;
     fullResetMs :=
       Math_max ((fullResetMs <$> lim1) ?? of_Z 0)%js
                ((fullResetMs <$> lim2) ?? of_Z 0)%js |}.

Section legacy_stages.
Variable this : SkRateLimiterService.
Variable l : LegacyRateLimit.
Variable actor : string.
Variable factor : number.
Variable r : Redis.

Let kmin := createLimitKey (Legacy l) actor (Some "min").
Let kb := createLimitKey (Bucket (legacy_bucket l)) actor None.
Let cmin := read_counter kmin r.
Let cb := read_counter kb r.

Definition legacy_promises : list (Async (option LimitInfo)) :=
  (if hasMinLimit l then [limitMin this l actor factor] else []) ++
  (if hasMaxLimit l
   then [Some <$> limitBucket this (legacy_bucket l) actor factor] else []).

Definition legacy_lims : list (option LimitInfo) :=
  (if hasMinLimit l then [Some (min_info this l factor cmin)] else []) ++
  (if hasMaxLimit l
   then [Some (bucket_info this (legacy_bucket l) factor cb)] else []).

Definition legacy_after : Redis :=
  let r1 := if hasMinLimit l then (redis_get kmin r).2 else r in
  let r2 := if hasMaxLimit l then (redis_get kb r1).2 else r1 in
  let r3 :=
    if hasMinLimit l then
      after_call kmin (min_blocked this l factor cmin)
        (min_next this l factor cmin) (min_resetMs this l factor cmin) r2
    else r2 in
  if hasMaxLimit l then
    after_call kb (bucket_blocked this (legacy_bucket l) factor cb)
      (bucket_next this (legacy_bucket l) factor cb)
      (bucket_fullResetMs this (legacy_bucket l) factor cb) r3
  else r3.
End legacy_stages.

(** The merge as the specification words it: over the result of the
    min-interval limiter and the result of the bucket limiter, either of
    which may be missing. *)
Definition merged (of_min of_bucket : option LimitInfo) : LimitInfo :=
  {| blocked :=
       from_option blocked false of_min || from_option blocked false of_bucket;
     remaining :=
       Math_min (from_option remaining (of_Z 1) of_min)
                (from_option remaining (of_Z 1) of_bucket);
     resetSec :=
       Math_max (from_option resetSec (of_Z 0) of_min)
                (from_option resetSec (of_Z 0) of_bucket);
     resetMs :=
       Math_max (from_option resetMs (of_Z 0) of_min)
                (from_option resetMs (of_Z 0) of_bucket);
     fullResetSec :=
       Math_max (from_option fullResetSec (of_Z 0) of_min)
                (from_option fullResetSec (of_Z 0) of_bucket);
     fullResetMs :=
       Math_max (from_option fullResetMs (of_Z 0) of_min)
                (from_option fullResetMs (of_Z 0) of_bucket) |}.

(** A number in lowest terms, as every arithmetic operation returns it. *)
Definition canonical (a : number) : Prop :=
  match a with Fin q => Qred q = q | _ => True end.

(** ** Concrete values used to exercise the theorems *)

Definition empty_redis : Redis := {| data := ∅; commands := [] |}.

Definition service_at (ms : Z) : SkRateLimiterService :=
  {| disabled := false; now := of_Z ms |}.

Definition disabled_service : SkRateLimiterService :=
  {| disabled := true; now := of_Z 0 |}.

(** The bucket of the specification's examples. *)
Definition bucket5 (k : string) : RateLimit :=
  {| key := k; size := 5;
     dripRate := Some (of_Z 1000); dripSize := Some (of_Z 1) |}.

(** A legacy rule with only [minInterval]. *)
Definition min_only (k : string) (ms : Z) : LegacyRateLimit :=
  {| legacy_key := k; legacy_type := type_undefined;
     duration := None; max := None; minInterval := Some (of_Z ms) |}.

(** ** A bucket filled at one instant *)

(** What [m] calls at one instant return ([blocked], [remaining]) when the
    bucket of integer capacity [cap] holds [n], and the counts they write. *)
Fixpoint bucket_outcomes (cap : Z) (m : nat) (n : Z) : list (bool * number) :=
  match m with
  | O => []
  | S m =>
      if cap <=? n then (true, of_Z 0) :: bucket_outcomes cap m n
      else (false, of_Z (cap - n - 1)) :: bucket_outcomes cap m (n + 1)
  end.

Fixpoint bucket_writes (cap : Z) (m : nat) (n : Z) : list Z :=
  match m with
  | O => []
  | S m =>
      if cap <=? n then bucket_writes cap m n
      else (n + 1) :: bucket_writes cap m (n + 1)
  end.

(** The counter holds [n], written at time [ms] unless it is still empty. *)
Definition holds (ms n : Z) (counter : LimitCounter) : Prop :=
  c counter = of_Z n /\ (0 < n -> t counter = of_Z ms).

Definition outcome (info : LimitInfo) : bool * number :=
  (blocked info, remaining info).

Definition stored (ms n : Z) : JsonCounter :=
  {| json_t := JNum (inject_Z ms); json_c := JNum (inject_Z n) |}.

(** The count after the lazy reset of the min-interval limiter, given
    whether the interval is over. *)
Definition after_expiry (mc n : Z) (cleared : bool) : Z :=
  if (mc <=? n) && cleared then 0 else n.

(** ** Values of unknown type *)

(** A JavaScript value as [isLimitInfo] can meet one: a primitive, a
    function, or an object with its properties (an array is an object whose
    property names are its indices). *)
#[warnings="-register-all"]
Inductive JsValue : Type :=
| JsUndefined
| JsNull
| JsBoolean (b : bool)
| JsNumber (n : number)
| JsString (s : string)
| JsFunction
| JsObject (props : gmap string JsValue).

Inductive JsType : Type :=
| ty_undefined | ty_object | ty_boolean | ty_number | ty_string | ty_function.

Definition typeof (v : JsValue) : JsType :=
  match v with
  | JsUndefined => ty_undefined
  | JsNull | JsObject _ => ty_object
  | JsBoolean _ => ty_boolean
  | JsNumber _ => ty_number
  | JsString _ => ty_string
  | JsFunction => ty_function
  end.

Definition JsType_eqb (a b : JsType) : bool :=
  match a, b with
  | ty_undefined, ty_undefined | ty_object, ty_object
  | ty_boolean, ty_boolean | ty_number, ty_number
  | ty_string, ty_string | ty_function, ty_function => true
  | _, _ => false
  end.

(** [v == null] *)
Definition is_nullish (v : JsValue) : bool :=
  match v with JsUndefined | JsNull => true | _ => false end.

(** [k in v]; only asked of objects. *)
Definition has_property (k : string) (v : JsValue) : bool :=
  match v with
  | JsObject props => bool_decide (is_Some (props !! k))
  | _ => false
  end.

(** [v.k]; a missing property reads as [undefined]. *)
Definition get_property (k : string) (v : JsValue) : JsValue :=
  match v with
  | JsObject props => default JsUndefined (props !! k)
  | _ => JsUndefined
  end.

Definition isLimitInfo (info : JsValue) : bool :=
  if is_nullish info then false
  else if negb (JsType_eqb (typeof info) ty_object) then false
  else if negb (has_property "blocked" info)
          || negb (JsType_eqb (typeof (get_property "blocked" info)) ty_boolean)
  then false
  else if negb (has_property "remaining" info)
          || negb (JsType_eqb (typeof (get_property "remaining" info)) ty_number)
  then false
  else if negb (has_property "resetSec" info)
          || negb (JsType_eqb (typeof (get_property "resetSec" info)) ty_number)
  then false
  else if negb (has_property "resetMs" info)
          || negb (JsType_eqb (typeof (get_property "resetMs" info)) ty_number)
  then false
  else if negb (has_property "fullResetSec" info)
          || negb (JsType_eqb (typeof (get_property "fullResetSec" info))
                     ty_number)
  then false
  else if negb (has_property "fullResetMs" info)
          || negb (JsType_eqb (typeof (get_property "fullResetMs" info))
                     ty_number)
  then false
  else true.

(** The object literal a limiter returns. *)
Definition LimitInfo_object (info : LimitInfo) : gmap string JsValue :=
  <["blocked" := JsBoolean (blocked info)]>
  (<["remaining" := JsNumber (remaining info)]>
  (<["resetSec" := JsNumber (resetSec info)]>
  (<["resetMs" := JsNumber (resetMs info)]>
  (<["fullResetSec" := JsNumber (fullResetSec info)]>
  (<["fullResetMs" := JsNumber (fullResetMs info)]> ∅))))).

Definition LimitInfo_fields : list string :=
  ["blocked"; "remaining"; "resetSec"; "resetMs"; "fullResetSec";
   "fullResetMs"].

(** One test of [isLimitInfo]: the property is there and has the type. *)
Definition field_ok (ty : JsType) (k : string) (props : gmap string JsValue)
  : bool :=
  has_property k (JsObject props)
  && JsType_eqb (typeof (get_property k (JsObject props))) ty.

Definition field_type (k : string) : JsType :=
  if String.eqb k "blocked" then ty_boolean else ty_number.

(** [r'] is [r] after further commands, all on keys satisfying [P]. *)
Definition extends (P : string -> Prop) (r r' : Redis) : Prop :=
  exists cmds,
    commands r' = commands r ++ cmds /\
    Forall (fun cmd => P (command_key cmd)) cmds.

(** Under [k] the store holds the count [n] stamped [T]; an absent key
    holds the count 0. *)
Definition holds_at (k : string) (T n : Z) (r : Redis) : Prop :=
  (n = 0 /\ data r !! k = None) \/
  (exists e, data r !! k = Some e /\ value e = stored T n).

(** ** Calls at given times *)

(** The service with its clock at [X] milliseconds. *)
Definition at_time (this : SkRateLimiterService) (X : Z)
  : SkRateLimiterService :=
  {| disabled := disabled this; now := of_Z X |}.

(** One call at each of the [times], in this order, on one connection. *)
Fixpoint calls_at {A} (this : SkRateLimiterService) (times : list Z)
    (call : SkRateLimiterService -> Async A) (r : Redis) : list A * Redis :=
  match times with
  | [] => ([], r)
  | X :: rest =>
      let '(a, r1) := run (call (at_time this X)) r in
      let '(l, r2) := calls_at this rest call r1 in
      (a :: l, r2)
  end.

(** The times do not go back, starting from [T]. *)
Fixpoint ascending_from (T : Z) (times : list Z) : Prop :=
  match times with
  | [] => True
  | X :: rest => T <= X /\ ascending_from X rest
  end.

(** How many of the calls passed. *)
Definition passed (infos : list LimitInfo) : Z :=
  Z.of_nat (length (filter (fun info => blocked info = false) infos)).

(** The last of the [times], or [T] if there is none. *)
Fixpoint final_time (T : Z) (times : list Z) : Z :=
  match times with
  | [] => T
  | X :: rest => final_time X rest
  end.

(** ** Characters of a key *)

Definition underscore : Ascii.ascii := Eval compute in Ascii.ascii_of_nat 95.

(** Whether the character [a] occurs in [s]. *)
Fixpoint occurs (a : Ascii.ascii) (s : string) : bool :=
  match s with
  | EmptyString => false
  | String b s' => Ascii.eqb a b || occurs a s'
  end.

(** ** Sanity checks of the number model *)

Example round_tie : Math_round (Fin (5 # 2)) = 3 /\ Math_round (Fin (-5 # 2)) = (-2).
Proof. split; reflexivity. Qed.
Example div_zero : (1 / 0 = Infinity /\ 0 / 0 = NaN /\ (-1) / 0 = NegInfinity)%js.
Proof. repeat split; reflexivity. Qed.
Example max_nan : Math_max NaN 0 = NaN /\ (NaN >= 0)%js = false.
Proof. split; reflexivity. Qed.

(** ** Arithmetic on integers *)

Lemma Qred_inject_Z (q : Q) (z : Z) :
  (q == inject_Z z)%Q -> Qred q = inject_Z z.
Proof.
  intros H. rewrite (Qred_complete _ _ H).
  apply Qred_identity. simpl. apply Z.gcd_1_r.
Qed.

Lemma Qred_Z (z : Z) : Qred (inject_Z z) = inject_Z z.
Proof. now apply Qred_inject_Z. Qed.

Lemma fin_Z (q : Q) (z : Z) : (q == inject_Z z)%Q -> fin q = of_Z z.
Proof. intros H. unfold fin, of_Z. now rewrite (Qred_inject_Z _ _ H). Qed.

Lemma add_Z (a b : Z) : (of_Z a + of_Z b)%js = of_Z (a + b).
Proof. apply fin_Z. now rewrite inject_Z_plus. Qed.

Lemma sub_Z (a b : Z) : (of_Z a - of_Z b)%js = of_Z (a - b).
Proof.
  apply fin_Z. unfold Z.sub. now rewrite inject_Z_plus, inject_Z_opp.
Qed.

Lemma mul_Z (a b : Z) : (of_Z a * of_Z b)%js = of_Z (a * b).
Proof. apply fin_Z. now rewrite inject_Z_mult. Qed.

Lemma Qeq_bool_Z (a b : Z) : Qeq_bool (inject_Z a) (inject_Z b) = (a =? b).
Proof. unfold Qeq_bool. simpl. now rewrite !Z.mul_1_r. Qed.

Lemma Qle_bool_Z (a b : Z) : Qle_bool (inject_Z a) (inject_Z b) = (a <=? b).
Proof. unfold Qle_bool. simpl. now rewrite !Z.mul_1_r. Qed.

Lemma geb_Z (a b : Z) : (of_Z a >= of_Z b)%js = (b <=? a).
Proof. apply Qle_bool_Z. Qed.

Lemma ltb_Z (a b : Z) : (of_Z a < of_Z b)%js = (a <? b).
Proof. unfold ltb, leb, of_Z. rewrite !Qle_bool_Z. lia. Qed.

Lemma gtb_Z (a b : Z) : (of_Z a > of_Z b)%js = (b <? a).
Proof. apply ltb_Z. Qed.

Lemma Math_max_Z (a b : Z) : Math_max (of_Z a) (of_Z b) = of_Z (Z.max a b).
Proof.
  unfold Math_max, leb, of_Z. rewrite Qle_bool_Z.
  destruct (Z.leb_spec a b); f_equal; f_equal; lia.
Qed.

Lemma floor_div_Z (a b : Z) :
  b <> 0 -> Math_floor (of_Z a / of_Z b)%js = of_Z (a / b).
Proof.
  intros Hb. unfold div, of_Z.
  change (Qeq_bool (inject_Z b) 0) with (Qeq_bool (inject_Z b) (inject_Z 0)).
  rewrite (Qeq_bool_Z b 0).
  destruct (Z.eqb_spec b 0) as [|_]; [contradiction|].
  unfold fin, Math_floor, of_Z.
  now rewrite (Qfloor_comp _ _ (Qred_correct _)), <- Zdiv_Qdiv.
Qed.

Lemma ceil_Z (a : Z) : Math_ceil (of_Z a) = of_Z a.
Proof. unfold Math_ceil, of_Z. now rewrite Qceiling_Z. Qed.

Lemma stringify_Z (a : Z) : stringify_number (of_Z a) = JNum (inject_Z a).
Proof. unfold stringify_number, of_Z. f_equal. now apply Qred_inject_Z. Qed.

(** ** The type guard *)

Lemma isLegacyRateLimit_Legacy (l : SupportedRateLimit) :
  isLegacyRateLimit l = true <-> exists ll, l = Legacy ll.
Proof.
  unfold isLegacyRateLimit. destruct l as [lb|ll]; simpl.
  - split; [discriminate | now intros [? ?]].
  - split; [eauto | now destruct (legacy_type ll)].
Qed.

(** ** Running asynchronous computations *)

Lemma run_bind {A B} (p : Async A) (f : A -> Async B) r :
  run (p ≫= f) r = run (f (run p r).1) (run p r).2.
Proof.
  unfold mbind, Async_bind. revert r.
  induction p as [a | k cont IH | k v ms cont IH]; intros r; simpl; auto.
Qed.

Lemma run_fmap {A B} (f : A -> B) (p : Async A) r :
  run (f <$> p) r = (f (run p r).1, (run p r).2).
Proof.
  unfold fmap, Async_fmap, map_async. revert r.
  induction p as [a | k cont IH | k v ms cont IH]; intros r; simpl; auto.
Qed.

Lemma run_Promise_all2_no_get {A B} (p : Async A) (q : Async B) r :
  no_get p ->
  run (Promise_all2 p q) r =
  ((run p r).1, (run q (run p r).2).1, (run q (run p r).2).2).
Proof.
  revert r.
  induction p as [a | k cont IH | k v ms cont IH]; intros r Hp; simpl in *.
  - apply (run_fmap (pair a)).
  - contradiction.
  - now apply IH.
Qed.

(** Both promises start with a [GET]: both requests are sent before either
    continuation runs. *)
Lemma run_Promise_all2_get_get {A B} k (f : _ -> Async A) k'
    (g : _ -> Async B) r :
  (forall reply, no_get (f reply)) ->
  let r1 := (redis_get k r).2 in
  let r2 := (redis_get k' r1).2 in
  let p := f (redis_get k r).1 in
  let q := g (redis_get k' r1).1 in
  run (Promise_all2 (Get k f) (Get k' g)) r =
  ((run p r2).1, (run q (run p r2).2).1, (run q (run p r2).2).2).
Proof.
  intros Hf. simpl. now rewrite run_Promise_all2_no_get.
Qed.

Lemma run_Promise_all2_get_return {A B} k (f : _ -> Async A) (b : B) r :
  run (Promise_all2 (Get k f) (Return b)) r =
  ((run (Get k f) r).1, b, (run (Get k f) r).2).
Proof. simpl. apply (run_fmap (fun a => (a, b))). Qed.

Lemma run_Promise_all_2 {A} k (f : _ -> Async A) k' (g : _ -> Async A) r :
  (forall reply, no_get (f reply)) ->
  let r1 := (redis_get k r).2 in
  let r2 := (redis_get k' r1).2 in
  let p := f (redis_get k r).1 in
  let q := g (redis_get k' r1).1 in
  run (Promise_all [Get k f; Get k' g]) r =
  ([(run p r2).1; (run q (run p r2).2).1], (run q (run p r2).2).2).
Proof.
  intros Hf r1 r2 p q.
  change (Promise_all [Get k f; Get k' g]) with
    ((fun '(a, l) => a :: l) <$>
       Promise_all2 (Get k f)
         (Get k' (fun reply =>
            (fun '(a, l) => a :: l) <$> ((fun a => (a, [])) <$> g reply)))).
  rewrite run_fmap, run_Promise_all2_get_get by assumption.
  cbv zeta. fold r1 r2 p q. now rewrite !run_fmap.
Qed.

Lemma run_Promise_all_1 {A} k (f : _ -> Async A) r :
  run (Promise_all [Get k f]) r =
  ([(run (Get k f) r).1], (run (Get k f) r).2).
Proof.
  change (Promise_all [Get k f]) with
    ((fun '(a, l) => a :: l) <$> Promise_all2 (Get k f) (Return [])).
  now rewrite run_fmap, run_Promise_all2_get_return.
Qed.

(** ** The limiters as a read followed by a decision *)

Lemma limitBucket_eq this limit actor factor :
  limitBucket this limit actor factor =
  getLimitCounter (Bucket limit) actor None
    ≫= bucket_k this limit actor factor.
Proof. reflexivity. Qed.

Lemma limitMin_eq this limit actor factor :
  limitMin this limit actor factor =
  getLimitCounter (Legacy limit) actor (Some "min")
    ≫= min_k this limit actor factor.
Proof. reflexivity. Qed.

Lemma await_counter_eq {A} (K : LimitCounter -> Async A) reply :
  await_counter K reply = K (counter_of reply).
Proof. now destruct reply. Qed.

Lemma limitBucket_shape this limit actor factor :
  limitBucket this limit actor factor =
  Get (createLimitKey (Bucket limit) actor None)
      (await_counter (bucket_k this limit actor factor)).
Proof. reflexivity. Qed.

Lemma limitMin_shape this limit actor factor :
  limitMin this limit actor factor =
  Get (createLimitKey (Legacy limit) actor (Some "min"))
      (await_counter (min_k this limit actor factor)).
Proof. reflexivity. Qed.

Lemma no_get_min_k this limit actor factor counter :
  no_get (min_k this limit actor factor counter).
Proof. unfold min_k. now destruct (negb _). Qed.

Lemma run_bucket_k this limit actor factor counter r :
  run (bucket_k this limit actor factor counter) r =
  (bucket_info this limit factor counter,
   after_call (createLimitKey (Bucket limit) actor None)
     (bucket_blocked this limit factor counter)
     (bucket_next this limit factor counter)
     (bucket_fullResetMs this limit factor counter) r).
Proof. unfold bucket_k, after_call. now destruct (bucket_blocked _ _ _ _). Qed.

Lemma run_min_k this limit actor factor counter r :
  run (min_k this limit actor factor counter) r =
  (Some (min_info this limit factor counter),
   after_call (createLimitKey (Legacy limit) actor (Some "min"))
     (min_blocked this limit factor counter)
     (min_next this limit factor counter)
     (min_resetMs this limit factor counter) r).
Proof. unfold min_k, after_call. now destruct (min_blocked _ _ _ _). Qed.

Lemma run_limitBucket this limit actor factor r :
  let k := createLimitKey (Bucket limit) actor None in
  let counter := read_counter k r in
  run (limitBucket this limit actor factor) r =
  (bucket_info this limit factor counter,
   after_call k (bucket_blocked this limit factor counter)
     (bucket_next this limit factor counter)
     (bucket_fullResetMs this limit factor counter) (redis_get k r).2).
Proof.
  intros k counter. rewrite limitBucket_shape. simpl.
  rewrite await_counter_eq. apply run_bucket_k.
Qed.

Lemma run_limitMin this limit actor factor r :
  let k := createLimitKey (Legacy limit) actor (Some "min") in
  let counter := read_counter k r in
  run (limitMin this limit actor factor) r =
  (Some (min_info this limit factor counter),
   after_call k (min_blocked this limit factor counter)
     (min_next this limit factor counter)
     (min_resetMs this limit factor counter) (redis_get k r).2).
Proof.
  intros k counter. rewrite limitMin_shape. simpl.
  rewrite await_counter_eq. apply run_min_k.
Qed.

Lemma limitLegacy_eq this l actor factor :
  limitLegacy this l actor factor =
  lims ← Promise_all (legacy_promises this l actor factor);
  mret (merge (mjoin (lims !! 0%nat)) (mjoin (lims !! 1%nat))).
Proof.
  unfold limitLegacy, legacy_promises. fold (hasMaxLimit l).
  now destruct (hasMinLimit l), (hasMaxLimit l).
Qed.

Lemma run_legacy_promises this l actor factor r :
  run (Promise_all (legacy_promises this l actor factor)) r =
  (legacy_lims this l actor factor r, legacy_after this l actor factor r).
Proof.
  unfold legacy_promises, legacy_lims, legacy_after.
  rewrite limitMin_shape, limitBucket_shape.
  change (Some <$> Get ?k ?f) with (Get k (fun reply => Some <$> f reply)).
  destruct (hasMinLimit l), (hasMaxLimit l); cbv zeta; simpl app.
  - rewrite run_Promise_all_2
      by (intros; rewrite await_counter_eq; apply no_get_min_k).
    cbv zeta. rewrite await_counter_eq, run_min_k, run_fmap.
    now rewrite await_counter_eq, run_bucket_k.
  - rewrite run_Promise_all_1. simpl.
    now rewrite await_counter_eq, run_min_k.
  - rewrite run_Promise_all_1. simpl.
    now rewrite run_fmap, await_counter_eq, run_bucket_k.
  - reflexivity.
Qed.

Lemma run_limitLegacy this l actor factor r :
  run (limitLegacy this l actor factor) r =
  (merge (mjoin (legacy_lims this l actor factor r !! 0%nat))
         (mjoin (legacy_lims this l actor factor r !! 1%nat)),
   legacy_after this l actor factor r).
Proof. now rewrite limitLegacy_eq, run_bind, run_legacy_promises. Qed.

(** ** Numbers in lowest terms *)

Lemma canonical_fin q : canonical (fin q).
Proof. apply Qred_involutive. Qed.

Lemma canonical_of_Z z : canonical (of_Z z).
Proof. now apply Qred_inject_Z. Qed.

Lemma canonical_inf_of s : canonical (inf_of s).
Proof. now destruct s. Qed.

Lemma canonical_sub a b : canonical (a - b)%js.
Proof. destruct a, b; simpl; auto using Qred_involutive. Qed.

Lemma canonical_mul a b : canonical (a * b)%js.
Proof.
  destruct a, b; try exact I; try apply canonical_inf_of.
  apply canonical_fin.
Qed.

Lemma canonical_ceil a : canonical (Math_ceil a).
Proof. destruct a; simpl; auto. now apply Qred_inject_Z. Qed.

Lemma canonical_Math_max a b :
  canonical a -> canonical b -> canonical (Math_max a b).
Proof.
  intros Ha Hb. destruct a, b; simpl; auto. now destruct (Qle_bool _ _).
Qed.

Lemma canonical_eq p q : Qred p = p -> Qred q = q -> (p == q)%Q -> p = q.
Proof. intros Hp Hq H. rewrite <- Hp, <- Hq. now apply Qred_complete. Qed.

Lemma Qle_bool_total p q : Qle_bool p q = false -> Qle_bool q p = true.
Proof.
  intros H. apply Qle_bool_iff. apply Qlt_le_weak, Qnot_le_lt.
  intros Hle. apply Qle_bool_iff in Hle. congruence.
Qed.

Lemma Math_min_comm a b :
  canonical a -> canonical b -> Math_min a b = Math_min b a.
Proof.
  intros Ha Hb. destruct a as [| | |p], b as [| | |q]; try reflexivity. simpl.
  destruct (Qle_bool p q) eqn:Hpq, (Qle_bool q p) eqn:Hqp; try reflexivity.
  - f_equal. apply canonical_eq; auto.
    apply Qle_bool_iff in Hpq, Hqp. now apply Qle_antisym.
  - apply Qle_bool_total in Hpq. congruence.
Qed.

Lemma Math_max_comm a b :
  canonical a -> canonical b -> Math_max a b = Math_max b a.
Proof.
  intros Ha Hb. destruct a as [| | |p], b as [| | |q]; try reflexivity. simpl.
  destruct (Qle_bool p q) eqn:Hpq, (Qle_bool q p) eqn:Hqp; try reflexivity.
  - f_equal. apply canonical_eq; auto.
    apply Qle_bool_iff in Hpq, Hqp. now apply Qle_antisym.
  - apply Qle_bool_total in Hpq. congruence.
Qed.

Lemma canonical_bucket_info this limit factor counter :
  let info := bucket_info this limit factor counter in
  canonical (remaining info) /\ canonical (resetSec info) /\
  canonical (resetMs info) /\ canonical (fullResetSec info) /\
  canonical (fullResetMs info).
Proof.
  simpl. repeat split; try apply canonical_ceil.
  - apply canonical_Math_max; [apply canonical_sub | apply canonical_of_Z].
  - unfold bucket_resetMs. destruct (_ > _)%js; [apply canonical_of_Z|].
    apply canonical_Math_max; [apply canonical_sub | apply canonical_of_Z].
  - apply canonical_mul.
Qed.

(** The code's merge against the worded one, by position of the results. *)
Lemma merge_both a b : merge (Some a) (Some b) = merged (Some a) (Some b).
Proof. unfold merge, merged. simpl. now destruct (blocked a). Qed.

Lemma merge_min_only a : merge (Some a) None = merged (Some a) None.
Proof. unfold merge, merged. simpl. now destruct (blocked a). Qed.

Lemma merge_bucket_only this limit factor counter :
  let b := bucket_info this limit factor counter in
  merge (Some b) None = merged None (Some b).
Proof.
  intros b.
  destruct (canonical_bucket_info this limit factor counter)
    as (H1 & H2 & H3 & H4 & H5).
  pose proof (canonical_of_Z 0) as H0. pose proof (canonical_of_Z 1) as H1'.
  unfold merge, merged. cbn [fmap option_fmap option_map nullish from_option js_or].
  f_equal; try (now apply Math_max_comm); try (now apply Math_min_comm).
  now destruct (blocked b).
Qed.

Lemma merge_none : merge None None = merged None None.
Proof. reflexivity. Qed.

(** ** The bucket at one instant *)

Create Rewrite HintDb js_Z.
#[local] Hint Rewrite add_Z sub_Z mul_Z geb_Z ltb_Z gtb_Z Math_max_Z ceil_Z
  : js_Z.

Lemma zero_div dr : ~ (dr == 0)%Q -> (of_Z 0 / Fin dr)%js = of_Z 0.
Proof.
  intros H. unfold div, of_Z.
  destruct (Qeq_bool dr 0) eqn:E; [now apply Qeq_bool_iff in E|].
  apply fin_Z. unfold Qdiv. apply Qmult_0_l.
Qed.

Lemma zero_mul ds : (of_Z 0 * Fin ds)%js = of_Z 0.
Proof. apply fin_Z. apply Qmult_0_l. Qed.

Lemma floor_Z (a : Z) : Math_floor (of_Z a) = of_Z a.
Proof. unfold Math_floor, of_Z. now rewrite Qfloor_Z. Qed.

Lemma parse_stringify_Z (ms n : Z) :
  JSON_stringify {| t := of_Z ms; c := of_Z n |} = stored ms n /\
  JSON_parse (stored ms n) = {| t := of_Z ms; c := of_Z n |}.
Proof.
  unfold JSON_stringify, JSON_parse, stored. simpl.
  now rewrite !Qred_Z.
Qed.

Lemma read_absent k r : data r !! k = None -> read_counter k r = {| t := 0; c := 0 |}.
Proof. unfold read_counter. now intros ->. Qed.

Lemma read_after_get k k' r : read_counter k (redis_get k' r).2 = read_counter k r.
Proof. reflexivity. Qed.

Lemma read_after_set k v ms r :
  read_counter k (redis_set k v ms r) = JSON_parse v.
Proof. unfold read_counter, redis_set. simpl. now rewrite lookup_insert_eq. Qed.

Lemma sets_app l1 l2 : sets (l1 ++ l2) = sets l1 ++ sets l2.
Proof. apply omap_app. Qed.

Section bucket_at_one_instant.
Variable this : SkRateLimiterService.
Variable limit : RateLimit.
Variable actor : string.
Variable factor : number.
Variables (ms cap : Z) (dr ds : Q).
Hypothesis Hnow : now this = of_Z ms.
Hypothesis Hcap : (size limit * factor)%js = of_Z cap.
Hypothesis Hrate : (dripRate limit ?? of_Z 1000)%js = Fin dr.
Hypothesis Hrate0 : ~ (dr == 0)%Q.
Hypothesis Hsize : (dripSize limit ?? of_Z 1)%js = Fin ds.

Let k := createLimitKey (Bucket limit) actor None.

Lemma drip_at_once n counter :
  0 <= n -> holds ms n counter -> drip this limit counter = counter.
Proof.
  intros Hn [Hc Ht]. unfold drip. destruct counter as [t0 c0].
  simpl in *. subst c0. rewrite gtb_Z.
  destruct (Z.ltb_spec 0 n) as [Hpos|]; [|reflexivity].
  rewrite (Ht Hpos), Hnow, Hrate, Hsize, sub_Z, Z.sub_diag.
  rewrite zero_div, floor_Z, zero_mul by assumption.
  autorewrite with js_Z. do 2 f_equal. lia.
Qed.

Lemma bucket_blocked_at_once n counter :
  0 <= n -> holds ms n counter ->
  bucket_blocked this limit factor counter = (cap <=? n).
Proof.
  intros Hn H. unfold bucket_blocked.
  rewrite (drip_at_once n), Hcap by assumption.
  destruct H as [-> _]. apply geb_Z.
Qed.

Lemma bucket_next_at_once n counter :
  0 <= n -> holds ms n counter ->
  bucket_next this limit factor counter =
  if cap <=? n then counter else {| t := of_Z ms; c := of_Z (n + 1) |}.
Proof.
  intros Hn H. unfold bucket_next.
  rewrite (bucket_blocked_at_once n), (drip_at_once n) by assumption.
  destruct (cap <=? n); [reflexivity|]. unfold bump.
  destruct H as [-> _]. now rewrite Hnow, add_Z.
Qed.

Lemma bucket_step n r :
  0 <= n -> holds ms n (read_counter k r) ->
  let call := run (limitBucket this limit actor factor) r in
  if cap <=? n then
    outcome call.1 = (true, of_Z 0) /\
    call.2 = (redis_get k r).2
  else
    outcome call.1 = (false, of_Z (cap - n - 1)) /\
    exists px, call.2 = redis_set k (stored ms (n + 1)) px (redis_get k r).2.
Proof.
  intros Hn H. rewrite run_limitBucket. fold k. cbv zeta.
  unfold outcome, after_call. simpl. unfold bucket_remaining.
  rewrite (bucket_next_at_once n), (bucket_blocked_at_once n), Hcap
    by assumption.
  destruct (Z.leb_spec cap n).
  - split; [|reflexivity]. destruct H as [-> _].
    autorewrite with js_Z. do 2 f_equal. lia.
  - split.
    + cbn [c]. autorewrite with js_Z. do 2 f_equal. lia.
    + eexists. now rewrite (proj1 (parse_stringify_Z _ _)).
Qed.

Lemma bucket_fill m : forall n r,
  0 <= n -> holds ms n (read_counter k r) ->
  let calls := successive m (limitBucket this limit actor factor) r in
  map outcome calls.1 = bucket_outcomes cap m n /\
  sets (commands calls.2) =
    sets (commands r) ++ map (stored ms) (bucket_writes cap m n).
Proof.
  induction m as [|m IH]; intros n r Hn H.
  - simpl. now rewrite app_nil_r.
  - pose proof (bucket_step n r Hn H) as Hstep.
    cbn [successive bucket_outcomes bucket_writes]. cbv zeta in Hstep.
    destruct (run (limitBucket this limit actor factor) r) as [info r1].
    cbn [fst snd] in Hstep.
    destruct (cap <=? n).
    + destruct Hstep as [Ho ->].
      specialize (IH n (redis_get k r).2 Hn H). cbv zeta in IH.
      destruct (successive m _ _) as [infos r2]. cbn [fst snd map] in *.
      destruct IH as [IH1 IH2]. split; [now rewrite Ho, IH1|].
      rewrite IH2. cbn [redis_get snd commands]. rewrite sets_app.
      cbn [sets omap]. now rewrite app_nil_r.
    + destruct Hstep as [Ho [px ->]].
      assert (Hnext : holds ms (n + 1)
                (read_counter k (redis_set k (stored ms (n + 1)) px
                                   (redis_get k r).2))).
      { rewrite read_after_set, (proj2 (parse_stringify_Z _ _)).
        now split. }
      specialize (IH (n + 1) _ ltac:(lia) Hnext). cbv zeta in IH.
      destruct (successive m _ _) as [infos r2]. cbn [fst snd map] in *.
      destruct IH as [IH1 IH2]. split; [now rewrite Ho, IH1|].
      rewrite IH2. cbn [redis_set redis_get snd commands].
      rewrite !sets_app. cbn [sets omap]. now rewrite <- !app_assoc.
Qed.
End bucket_at_one_instant.

(** ** One call on integer data *)

Lemma read_stored k r e T n :
  data r !! k = Some e -> value e = stored T n ->
  read_counter k r = {| t := of_Z T; c := of_Z n |}.
Proof.
  unfold read_counter. intros -> Hv. simpl. rewrite Hv.
  apply parse_stringify_Z.
Qed.

Lemma lookup_after_get k k' r :
  data (redis_get k' r).2 !! k = data r !! k.
Proof. reflexivity. Qed.

Lemma lookup_after_set k v ms r :
  value <$> data (redis_set k v ms r) !! k = Some v.
Proof. unfold redis_set. simpl. now rewrite lookup_insert_eq. Qed.

Section bucket_call.
Variable this : SkRateLimiterService.
Variable limit : RateLimit.
Variable actor : string.
Variable factor : number.
Variables X T n cap dr ds : Z.
Variable r : Redis.
Hypothesis Hnow : now this = of_Z X.
Hypothesis Hcap : (size limit * factor)%js = of_Z cap.
Hypothesis Hrate : (dripRate limit ?? of_Z 1000)%js = of_Z dr.
Hypothesis Hrate0 : dr <> 0.
Hypothesis Hsize : (dripSize limit ?? of_Z 1)%js = of_Z ds.

Let k := createLimitKey (Bucket limit) actor None.
Hypothesis Hread : read_counter k r = {| t := of_Z T; c := of_Z n |}.

(** The count after the drips. *)
Variable d : Z.
Hypothesis Hd : d = if 0 <? n then Z.max (n - (X - T) / dr * ds) 0 else n.

Lemma drip_Z :
  drip this limit (read_counter k r) = {| t := of_Z T; c := of_Z d |}.
Proof.
  rewrite Hread, Hd. unfold drip. cbn [c t]. rewrite gtb_Z.
  destruct (0 <? n); [|reflexivity].
  rewrite Hnow, Hrate, Hsize, sub_Z, floor_div_Z by assumption.
  now autorewrite with js_Z.
Qed.

Lemma bucket_call_Z :
  let call := run (limitBucket this limit actor factor) r in
  blocked call.1 = (cap <=? d) /\
  remaining call.1 =
    of_Z (Z.max (cap - (if cap <=? d then d else d + 1)) 0) /\
  if cap <=? d then call.2 = (redis_get k r).2
  else exists px, call.2 = redis_set k (stored X (d + 1)) px (redis_get k r).2.
Proof.
  rewrite run_limitBucket. fold k. cbv zeta. cbn [fst snd].
  unfold after_call, bucket_info. cbn [blocked remaining].
  unfold bucket_remaining, bucket_next, bucket_blocked.
  rewrite drip_Z, Hcap. cbn [c]. rewrite geb_Z.
  destruct (cap <=? d); cbn [negb]; unfold bump; cbn [c];
    autorewrite with js_Z; repeat split.
  eexists. now rewrite Hnow, (proj1 (parse_stringify_Z _ _)).
Qed.

Lemma bucket_call_blocked :
  cap <= d ->
  let call := run (limitBucket this limit actor factor) r in
  blocked call.1 = true /\ remaining call.1 = of_Z 0 /\
  call.2 = (redis_get k r).2.
Proof.
  intros Hle. pose proof bucket_call_Z as H. cbv zeta in *.
  destruct (Z.leb_spec cap d); [|lia]. destruct H as (-> & -> & ->).
  repeat split. f_equal. lia.
Qed.

Lemma bucket_call_free :
  d < cap ->
  let call := run (limitBucket this limit actor factor) r in
  blocked call.1 = false /\ remaining call.1 = of_Z (cap - d - 1) /\
  exists px, call.2 = redis_set k (stored X (d + 1)) px (redis_get k r).2.
Proof.
  intros Hlt. pose proof bucket_call_Z as H. cbv zeta in *.
  destruct (Z.leb_spec cap d); [lia|]. destruct H as (-> & -> & H).
  repeat split; [f_equal; lia | exact H].
Qed.
End bucket_call.

Section min_call.
Variable this : SkRateLimiterService.
Variable limit : LegacyRateLimit.
Variable actor : string.
Variable factor : number.
Variables X T n mc : Z.
Variable r : Redis.
Hypothesis Hnow : now this = of_Z X.
Hypothesis Hmax : maxCalls factor = of_Z mc.

Let k := createLimitKey (Legacy limit) actor (Some "min").
Hypothesis Hread : read_counter k r = {| t := of_Z T; c := of_Z n |}.

Lemma min_free_below_max :
  n < mc ->
  blocked <$> (run (limitMin this limit actor factor) r).1 = Some false.
Proof.
  intros Hlt. rewrite run_limitMin. fold k. cbv zeta.
  cbn [fst fmap option_fmap option_map]. unfold min_info. cbn [blocked].
  unfold min_blocked, expire. rewrite Hread, Hmax. cbn [c]. rewrite geb_Z.
  destruct (Z.leb_spec mc n); [lia|]. cbn [c]. rewrite geb_Z.
  now destruct (Z.leb_spec mc n); [lia|].
Qed.

Lemma min_call_first :
  n < mc ->
  let call := run (limitMin this limit actor factor) r in
  blocked <$> call.1 = Some false /\
  exists px, call.2 = redis_set k (stored X (n + 1)) px (redis_get k r).2.
Proof.
  intros Hlt. rewrite run_limitMin. fold k. cbv zeta. cbn [fst snd fmap option_fmap option_map].
  unfold after_call, min_info. cbn [blocked].
  unfold min_next, min_blocked, expire.
  rewrite Hread, Hmax. cbn [c]. rewrite geb_Z.
  destruct (Z.leb_spec mc n); [lia|]. cbn [c]. rewrite geb_Z.
  destruct (Z.leb_spec mc n); [lia|]. cbn [negb]. split; [reflexivity|].
  eexists. unfold bump. cbn [c]. 
  now rewrite Hnow, add_Z, (proj1 (parse_stringify_Z _ _)).
Qed.

Variable mi : Z.
Hypothesis Hmin : minInterval limit = Some (of_Z mi).

Lemma expire_Z :
  expire this limit factor (read_counter k r) =
  {| t := of_Z T; c := of_Z (after_expiry mc n (mi <=? X - T)) |}.
Proof.
  rewrite Hread. unfold expire, after_expiry. cbn [c t].
  rewrite Hmax, Hnow, Hmin. cbn [ToNumber nullish].
  autorewrite with js_Z. now destruct (mc <=? n), (mi <=? X - T).
Qed.

Lemma min_call_Z :
  let n' := after_expiry mc n (mi <=? X - T) in
  let call := run (limitMin this limit actor factor) r in
  blocked <$> call.1 = Some (mc <=? n') /\
  if mc <=? n' then call.2 = (redis_get k r).2
  else exists px,
      call.2 = redis_set k (stored X (n' + 1)) px (redis_get k r).2.
Proof.
  rewrite run_limitMin. fold k. cbv zeta.
  cbn [fst snd fmap option_fmap option_map].
  unfold after_call, min_info. cbn [blocked]. unfold min_next, min_blocked.
  rewrite expire_Z, Hmax. cbn [c]. rewrite geb_Z.
  destruct (mc <=? _); cbn [negb]; split; try reflexivity.
  eexists. unfold bump. cbn [c].
  now rewrite Hnow, add_Z, (proj1 (parse_stringify_Z _ _)).
Qed.

(** Blocked: the counter is full and the interval is not over. *)
Lemma min_call_blocked :
  mc <= n -> X - T < mi ->
  let call := run (limitMin this limit actor factor) r in
  blocked <$> call.1 = Some true /\ call.2 = (redis_get k r).2.
Proof.
  intros Hn Hi. pose proof min_call_Z as H. cbv zeta in *.
  unfold after_expiry in H.
  destruct (Z.leb_spec mc n); [|lia]. destruct (Z.leb_spec mi (X - T)); [lia|].
  cbn [andb] in H. destruct (Z.leb_spec mc n); [|lia]. exact H.
Qed.

(** Lazy reset: the counter is full and the interval is over. *)
Lemma min_call_reset :
  0 < mc <= n -> mi <= X - T ->
  let call := run (limitMin this limit actor factor) r in
  c (expire this limit factor (read_counter k r)) = of_Z 0 /\
  blocked <$> call.1 = Some false /\
  exists px, call.2 = redis_set k (stored X 1) px (redis_get k r).2.
Proof.
  intros Hn Hi. pose proof min_call_Z as H. pose proof expire_Z as He.
  cbv zeta in *. unfold after_expiry in H, He.
  destruct (Z.leb_spec mc n); [|lia]. destruct (Z.leb_spec mi (X - T)); [|lia].
  cbn [andb] in H, He. destruct (Z.leb_spec mc 0); [lia|].
  rewrite He. split; [reflexivity|]. exact H.
Qed.
End min_call.

(** ** Disabled service *)

(** C4: when the service is disabled, [limit] is a plain return, without
    any Redis command: it yields [blocked = false], [remaining] equal to
    [Number.MAX_SAFE_INTEGER] (2^53 - 1, the largest count the service can
    report) and all four resets 0, and leaves the connection exactly as it
    was, whatever the rule, actor, factor and stored state. *)
Theorem limit_disabled this l actor factor r :
  disabled this = true ->
  let info :=
    {| blocked := false; remaining := Number_MAX_SAFE_INTEGER;
       resetSec := 0; resetMs := 0; fullResetSec := 0; fullResetMs := 0 |} in
  limit this l actor factor = Return info /\
  run (limit this l actor factor) r = (info, r) /\
  Number_MAX_SAFE_INTEGER = of_Z 9007199254740991.
Proof.
  intros Hd info. unfold limit. rewrite Hd. repeat split; reflexivity.
Qed.

Lemma limit_disabled_witness :
  disabled disabled_service = true /\
  run (limit disabled_service (Bucket (bucket5 "k")) "alice" None) empty_redis
  = ({| blocked := false; remaining := of_Z 9007199254740991;
        resetSec := 0; resetMs := 0; fullResetSec := 0; fullResetMs := 0 |},
     empty_redis).
Proof.
  split; [reflexivity|].
  apply (limit_disabled disabled_service (Bucket (bucket5 "k")) "alice" None
           empty_redis).
  reflexivity.
Defined.

(** ** No write when blocked *)

(** C6: an invocation of the bucket limiter or of the min-interval limiter
    that returns [blocked = true] sends its [GET] and nothing else: the
    stored data is what it was before the call. *)
Theorem blocked_no_write this lb ll actor factor r :
  (blocked (run (limitBucket this lb actor factor) r).1 = true ->
   (run (limitBucket this lb actor factor) r).2 =
   {| data := data r;
      commands := commands r ++ [GET (createLimitKey (Bucket lb) actor None)]
   |}) /\
  (blocked <$> (run (limitMin this ll actor factor) r).1 = Some true ->
   (run (limitMin this ll actor factor) r).2 =
   {| data := data r;
      commands :=
        commands r ++ [GET (createLimitKey (Legacy ll) actor (Some "min"))]
   |}).
Proof.
  rewrite run_limitBucket, run_limitMin. cbv zeta. simpl. split.
  - intros H. unfold after_call. now rewrite H.
  - intros [= H]. unfold after_call. now rewrite H.
Qed.

Lemma blocked_no_write_witness :
  let this := service_at 0 in
  let lb := {| key := "k"; size := 0; dripRate := None; dripSize := None |} in
  let ll := min_only "k" 5000 in
  let r :=
    {| data :=
         {[ "rl_alice_k_min" :=
              {| value := {| json_t := JNum 0; json_c := JNum 1 |};
                 px := 5000 |} ]};
       commands := [] |} in
  (run (limitBucket this lb "alice" 1) r).2 =
    {| data := data r; commands := [GET "rl_alice_k"] |} /\
  (run (limitMin this ll "alice" 1) r).2 =
    {| data := data r; commands := [GET "rl_alice_k_min"] |}.
Proof.
  intros this lb ll r.
  destruct (blocked_no_write this lb ll "alice" 1 r) as [Hb Hm].
  split; [apply Hb | apply Hm]; vm_compute; reflexivity.
Defined.

(** ** Store keys *)

Lemma append_not_longer (s x : string) : s +:+ x = s -> x = "".
Proof.
  induction s as [|a s IH]; simpl; [auto|]. intros [= H]. auto.
Qed.

Lemma bucket_key_ne_min_key actor k :
  "rl_" +:+ actor +:+ "_" +:+ k <> "rl_" +:+ actor +:+ "_" +:+ k +:+ "_" +:+ "min".
Proof.
  intros H. apply (inj (String.app "rl_")), (inj (String.app actor)) in H.
  apply (inj (String.app "_")) in H. symmetry in H.
  apply append_not_longer in H. discriminate.
Qed.

Lemma bucket_commands this limit actor factor r :
  exists cmds,
    commands (run (limitBucket this limit actor factor) r).2 =
      commands r ++ cmds /\
    Forall (fun cmd => command_key cmd = createLimitKey (Bucket limit) actor None)
      cmds.
Proof.
  rewrite run_limitBucket. cbv zeta. unfold after_call.
  destruct (bucket_blocked _ _ _ _); simpl.
  - eexists. split; [reflexivity|]. repeat constructor.
  - rewrite <- app_assoc. eexists. split; [reflexivity|]. repeat constructor.
Qed.

Lemma min_commands this limit actor factor r :
  exists cmds,
    commands (run (limitMin this limit actor factor) r).2 =
      commands r ++ cmds /\
    Forall (fun cmd =>
              command_key cmd = createLimitKey (Legacy limit) actor (Some "min"))
      cmds.
Proof.
  rewrite run_limitMin. cbv zeta. unfold after_call.
  destruct (min_blocked _ _ _ _); simpl.
  - eexists. split; [reflexivity|]. repeat constructor.
  - rewrite <- app_assoc. eexists. split; [reflexivity|]. repeat constructor.
Qed.

(** C9: the keys of the counters.  [createLimitKey] is private to the
    module; the bucket limiter calls it without a subject and the
    min-interval limiter with the subject ["min"], for the read and for the
    write alike.  For every rule and actor the key is
    ["rl_" ++ actor ++ "_" ++ rule.key] without a subject and
    ["rl_" ++ actor ++ "_" ++ rule.key ++ "_" ++ subject] with one, for
    ["min"] as for any other subject that [if (subject)] takes as present.
    Every command of the bucket limiter carries the first key, every command
    of the min-interval limiter the second with subject ["min"], and for one
    actor and one rule key the two differ. *)
Theorem createLimitKey_spec (l : SupportedRateLimit) (actor : string) :
  createLimitKey l actor None = "rl_" +:+ actor +:+ "_" +:+ limit_key l /\
  createLimitKey l actor (Some "min") =
    "rl_" +:+ actor +:+ "_" +:+ limit_key l +:+ "_" +:+ "min" /\
  (forall subject, truthy_string (Some subject) = true ->
     createLimitKey l actor (Some subject) =
     "rl_" +:+ actor +:+ "_" +:+ limit_key l +:+ "_" +:+ subject) /\
  (forall this lb factor r,
     exists cmds,
       commands (run (limitBucket this lb actor factor) r).2 =
         commands r ++ cmds /\
       Forall (fun cmd => command_key cmd = "rl_" +:+ actor +:+ "_" +:+ key lb)
         cmds) /\
  (forall this ll factor r,
     exists cmds,
       commands (run (limitMin this ll actor factor) r).2 =
         commands r ++ cmds /\
       Forall (fun cmd =>
                 command_key cmd =
                 "rl_" +:+ actor +:+ "_" +:+ legacy_key ll +:+ "_" +:+ "min")
         cmds) /\
  (forall lb ll, key lb = legacy_key ll ->
     createLimitKey (Bucket lb) actor None <>
     createLimitKey (Legacy ll) actor (Some "min")).
Proof.
  split; [reflexivity|]. split; [reflexivity|]. split.
  { intros subject Hs. unfold createLimitKey. now rewrite Hs. }
  split; [intros; apply bucket_commands|].
  split; [intros; apply min_commands|].
  intros lb ll Hk. unfold createLimitKey. simpl. rewrite Hk.
  apply bucket_key_ne_min_key.
Qed.

Lemma createLimitKey_spec_witness :
  createLimitKey (Legacy (min_only "k" 5000)) "alice" (Some "min")
    = "rl_alice_k_min" /\
  createLimitKey (Bucket (bucket5 "k")) "alice" None <>
  createLimitKey (Legacy (min_only "k" 5000)) "alice" (Some "min").
Proof.
  destruct (createLimitKey_spec (Legacy (min_only "k" 5000)) "alice")
    as (_ & _ & Hs & _ & _ & Hne).
  split.
  - apply (Hs "min"). reflexivity.
  - apply (Hne (bucket5 "k") (min_only "k" 5000)). reflexivity.
Defined.

(** ** Legacy limits are the merge of their sub-limiters *)

Lemma gets_app l1 l2 : gets (l1 ++ l2) = gets l1 ++ gets l2.
Proof. apply omap_app. Qed.

Lemma gets_after_call k b counter ms r :
  gets (commands (after_call k b counter ms r)) = gets (commands r).
Proof.
  unfold after_call. destruct b; [reflexivity|]. simpl.
  rewrite gets_app. simpl. apply app_nil_r.
Qed.

Lemma gets_legacy_after this l actor factor r :
  gets (commands (legacy_after this l actor factor r)) =
  gets (commands r) ++
  (if hasMinLimit l then [createLimitKey (Legacy l) actor (Some "min")]
   else []) ++
  (if hasMaxLimit l
   then [createLimitKey (Bucket (legacy_bucket l)) actor None] else []).
Proof.
  unfold legacy_after.
  destruct (hasMinLimit l), (hasMaxLimit l); cbv zeta;
    rewrite ?gets_after_call; simpl; rewrite ?gets_app, ?app_nil_r; simpl;
    rewrite <- ?app_assoc; reflexivity.
Qed.

(** C2: for a legacy rule, [limit] returns the merge of the results of its
    sub-limiters, each taken on the state the call started from.  [blocked]
    is the OR (a missing result does not block), [remaining] the MIN (a
    missing result counts 1), the four resets the MAX (a missing result
    counts 0).  The min-interval limiter runs exactly when [minInterval] is
    truthy; the bucket limiter runs exactly when [max] and [duration] are
    both truthy, on the rule with [size = max],
    [dripRate = round(duration / max)] and [dripSize] 1.  The reads sent are
    those of the limiters that run, min-interval first. *)
Theorem limitLegacy_is_merge this l actor factor r :
  disabled this = false ->
  let f := (factor ?? of_Z 1)%js in
  let of_min :=
    if truthy_opt (minInterval l)
    then (run (limitMin this l actor f) r).1 else None in
  let of_bucket :=
    match max l, duration l with
    | Some m, Some d =>
        if truthy m && truthy d then
          Some (run (limitBucket this
                       {| key := legacy_key l; size := m;
                          dripRate := Some (Math_round (d / m)%js);
                          dripSize := Some (of_Z 1) |} actor f) r).1
        else None
    | _, _ => None
    end in
  (run (limit this (Legacy l) actor factor) r).1 = merged of_min of_bucket /\
  gets (commands (run (limit this (Legacy l) actor factor) r).2) =
  gets (commands r) ++
  (if truthy_opt (minInterval l)
   then ["rl_" +:+ actor +:+ "_" +:+ legacy_key l +:+ "_" +:+ "min"] else []) ++
  (if truthy_opt (max l) && truthy_opt (duration l)
   then ["rl_" +:+ actor +:+ "_" +:+ legacy_key l] else []).
Proof.
  intros Hd f of_min of_bucket. unfold limit. rewrite Hd. fold f.
  rewrite run_limitLegacy. cbn [fst snd]. split; [|apply gets_legacy_after].
  subst of_min of_bucket. rewrite run_limitMin. cbv zeta. cbn [fst].
  unfold legacy_lims, hasMinLimit, hasMaxLimit.
  destruct l as [k ty d m mi]. cbn [minInterval max duration legacy_key].
  destruct (truthy_opt mi); destruct m as [m|], d as [d|];
    cbn [truthy_opt andb app lookup list_lookup mjoin option_join];
    try destruct (truthy m); try destruct (truthy d);
    cbn [truthy_opt andb app lookup list_lookup mjoin option_join];
    try rewrite run_limitBucket; cbv zeta; cbn [fst];
    try apply merge_both; try apply merge_min_only; try apply merge_none;
    try match goal with
        | |- merge (Some (bucket_info ?t ?lb ?x ?cnt)) None = _ =>
            exact (merge_bucket_only t lb x cnt)
        end.
Qed.

Lemma limitLegacy_is_merge_witness :
  let l :=
    {| legacy_key := "k"; legacy_type := type_legacy;
       duration := Some (of_Z 10000); max := Some (of_Z 10);
       minInterval := Some (of_Z 1000) |} in
  (run (limit (service_at 7000) (Legacy l) "alice" None) empty_redis).1 =
  {| blocked := false; remaining := 0; resetSec := 1; resetMs := 1000;
     fullResetSec := 1; fullResetMs := 1000 |} /\
  gets (commands
          (run (limit (service_at 7000) (Legacy l) "alice" None) empty_redis).2)
  = ["rl_alice_k_min"; "rl_alice_k"].
Proof.
  intros l.
  destruct (limitLegacy_is_merge (service_at 7000) l "alice" None empty_redis
              eq_refl) as [H1 H2].
  split; [rewrite H1 | rewrite H2]; vm_compute; reflexivity.
Defined.

(** ** Resets of a call that is not blocked *)

Lemma ge_1_gt_0 a : (a >= 1)%js = true -> (a > 0)%js = true.
Proof.
  destruct a as [| | |q]; try discriminate; try reflexivity.
  unfold geb, gtb, ltb, leb, of_Z. intros H. apply Qle_bool_iff in H.
  apply andb_true_intro. split.
  - apply Qle_bool_iff. now apply Qle_trans with (inject_Z 1).
  - apply negb_true_iff. destruct (Qle_bool q _) eqn:E; [|reflexivity].
    apply Qle_bool_iff in E. now pose proof (Qle_trans _ _ _ H E).
Qed.

Lemma ge_1_not_lt_1 a : (a >= 1)%js = true -> (a < 1)%js = false.
Proof. unfold geb, ltb. intros ->. apply andb_false_r. Qed.

Lemma Math_min_ge_1 a b :
  (Math_min a b >= 1)%js = true -> (a >= 1)%js = true /\ (b >= 1)%js = true.
Proof.
  destruct a as [| | |p], b as [| | |q]; try discriminate; simpl; auto.
  unfold geb, leb, of_Z. destruct (Qle_bool p q) eqn:Hpq; intros H; split; auto.
  - apply Qle_bool_iff in Hpq, H. apply Qle_bool_iff. eapply Qle_trans; eauto.
  - apply Qle_bool_total in Hpq. apply Qle_bool_iff in Hpq, H.
    apply Qle_bool_iff. eapply Qle_trans; eauto.
Qed.

Lemma bucket_reset_zero this limit factor counter :
  let info := bucket_info this limit factor counter in
  (remaining info >= 1)%js = true -> resetSec info = 0 /\ resetMs info = 0.
Proof.
  simpl. intros H. unfold bucket_resetMs. now rewrite (ge_1_gt_0 _ H).
Qed.

Lemma min_reset_zero this limit factor counter :
  let info := min_info this limit factor counter in
  (remaining info >= 1)%js = true -> resetSec info = 0 /\ resetMs info = 0.
Proof.
  simpl. intros H. unfold min_resetMs. now rewrite (ge_1_not_lt_1 _ H).
Qed.

(** C5, as stated, fails: the call that takes the last free slot of a bucket
    is not blocked, yet reports the resets of a full bucket. *)
Lemma last_slot_has_reset :
  ~ (forall this l actor factor r,
       let info := (run (limit this l actor factor) r).1 in
       blocked info = false -> resetSec info = 0 /\ resetMs info = 0).
Proof.
  intros H.
  specialize (H (service_at 7000) (Bucket (bucket5 "k")) "alice" None
    {| data :=
         {[ "rl_alice_k" :=
              {| value := {| json_t := JNum 7000; json_c := JNum 4 |};
                 px := 4000 |} ]};
       commands := [] |}).
  vm_compute in H. destruct (H eq_refl) as [H1 _]. discriminate.
Qed.

(** C5, amended: whenever [limit] returns [remaining >= 1], it returns
    [resetSec = 0] and [resetMs = 0]. *)
Theorem remaining_reset_zero this l actor factor r :
  let info := (run (limit this l actor factor) r).1 in
  (remaining info >= 1)%js = true -> resetSec info = 0 /\ resetMs info = 0.
Proof.
  unfold limit. destruct (disabled this); [now simpl|].
  destruct l as [lb|ll].
  - rewrite run_limitBucket. apply bucket_reset_zero.
  - rewrite run_limitLegacy. cbn [fst]. unfold legacy_lims.
    destruct (hasMinLimit ll), (hasMaxLimit ll);
      cbn [app lookup list_lookup mjoin option_join merge fmap option_fmap
           option_map nullish remaining resetSec resetMs];
      intros H; apply Math_min_ge_1 in H; destruct H as [Ha Hb];
      try apply min_reset_zero in Ha; try apply bucket_reset_zero in Ha;
      try apply bucket_reset_zero in Hb;
      repeat match goal with H : _ /\ _ |- _ => destruct H end;
      repeat match goal with H : _ = of_Z 0 |- _ => rewrite H end;
      split; reflexivity.
Qed.

Lemma remaining_reset_zero_witness :
  let info :=
    (run (limit (service_at 7000) (Bucket (bucket5 "k")) "alice" None)
       empty_redis).1 in
  remaining info = 4 /\ resetSec info = 0 /\ resetMs info = 0.
Proof.
  intros info. split; [reflexivity|].
  apply (remaining_reset_zero (service_at 7000) (Bucket (bucket5 "k")) "alice"
           None empty_redis).
  reflexivity.
Defined.

(** ** Filling a bucket *)

Lemma limit_Bucket this l actor factor :
  disabled this = false ->
  limit this (Bucket l) actor factor =
  limitBucket this l actor (factor ?? of_Z 1)%js.
Proof. unfold limit. now intros ->. Qed.

Lemma limit_Legacy this l actor factor :
  disabled this = false ->
  limit this (Legacy l) actor factor =
  limitLegacy this l actor (factor ?? of_Z 1)%js.
Proof. unfold limit. now intros ->. Qed.

Lemma holds_absent ms k r :
  data r !! k = None -> holds ms 0 (read_counter k r).
Proof. intros H. rewrite (read_absent _ _ H). now split. Qed.

Lemma finite_nonzero a :
  isFinite a = true -> truthy a = true -> exists q, a = Fin q /\ ~ (q == 0)%Q.
Proof.
  destruct a as [| | |q]; try discriminate. intros _ H. exists q.
  split; [reflexivity|]. intros E. apply Qeq_bool_iff in E. simpl in H.
  now rewrite E in H.
Qed.

(** C1: for the bucket [size = 5], [dripRate = 1000], [dripSize = 1], any
    actor and any instant, starting without a stored counter, six calls of
    [limit] in a row return [blocked = false] with [remaining] 4, 3, 2, 1, 0
    and then [blocked = true] with [remaining] 0. *)
Theorem bucket_monotonic_fill this actor k ms r :
  disabled this = false ->
  now this = of_Z ms ->
  data r !! createLimitKey (Bucket (bucket5 k)) actor None = None ->
  map outcome (successive 6 (limit this (Bucket (bucket5 k)) actor None) r).1 =
  [(false, of_Z 4); (false, of_Z 3); (false, of_Z 2); (false, of_Z 1);
   (false, of_Z 0); (true, of_Z 0)].
Proof.
  intros Hd Hnow Hr. rewrite limit_Bucket by assumption.
  refine (proj1 (bucket_fill this (bucket5 k) actor (of_Z 1) ms 5 1000 1 Hnow
                   eq_refl eq_refl _ eq_refl 6 0 r _ _)).
  - discriminate.
  - lia.
  - now apply holds_absent.
Qed.

Lemma bucket_monotonic_fill_witness :
  map outcome
    (successive 6 (limit (service_at 7000) (Bucket (bucket5 "k")) "alice" None)
       empty_redis).1 =
  [(false, of_Z 4); (false, of_Z 3); (false, of_Z 2); (false, of_Z 1);
   (false, of_Z 0); (true, of_Z 0)].
Proof.
  apply (bucket_monotonic_fill (service_at 7000) "alice" "k" 7000 empty_redis);
    reflexivity.
Defined.

(** C7: [factor] multiplies the capacity of the bucket and leaves the cost
    of a call at 1.  For every rule, factor and stored state, the bucket
    limiter blocks exactly when the count after the drips has reached
    [size * factor], and a call that is not blocked writes that count plus
    1.  For a bucket of [size = 5] with any finite non-zero [dripRate] and
    finite [dripSize], called with [factor = 2] at one instant from an
    absent counter: the capacity is 10, ten calls pass and the eleventh is
    blocked, and the counts written are 1, 2, ..., 10. *)
Theorem factor_scales_capacity (actor : string) :
  (forall this lb factor r,
     let counter :=
       drip this lb (read_counter (createLimitKey (Bucket lb) actor None) r) in
     let call := run (limitBucket this lb actor factor) r in
     blocked call.1 = (c counter >= size lb * factor)%js /\
     (blocked call.1 = false ->
      sets (commands call.2) =
      sets (commands r) ++
      [JSON_stringify {| t := now this; c := (c counter + 1)%js |}])) /\
  (forall this k rate drop ms r,
     let l := {| key := k; size := 5; dripRate := rate; dripSize := drop |} in
     disabled this = false ->
     now this = of_Z ms ->
     isFinite (rate ?? of_Z 1000)%js = true ->
     truthy (rate ?? of_Z 1000)%js = true ->
     isFinite (drop ?? of_Z 1)%js = true ->
     data r !! createLimitKey (Bucket l) actor None = None ->
     let calls :=
       successive 11 (limit this (Bucket l) actor (Some (of_Z 2))) r in
     (size l * 2)%js = 10 /\
     map blocked calls.1 =
       [false; false; false; false; false; false; false; false; false; false;
        true] /\
     sets (commands calls.2) =
       sets (commands r) ++ map (stored ms) [1; 2; 3; 4; 5; 6; 7; 8; 9; 10]).
Proof.
  split.
  - intros this lb factor r counter call. subst counter call.
    rewrite run_limitBucket. cbv zeta. cbn [fst snd]. unfold bucket_info.
    cbn [blocked]. split; [reflexivity|]. intros Hb.
    unfold after_call, bucket_next. rewrite Hb.
    cbn [negb redis_set redis_get snd commands]. rewrite !sets_app.
    cbn [sets omap]. now rewrite app_nil_r.
  - intros this k rate drop ms r l Hd Hnow Hfin Hnz Hdrop Hr calls.
    subst calls. rewrite limit_Bucket by assumption.
    destruct (finite_nonzero _ Hfin Hnz) as (dr & Hdr & Hdr0).
    destruct (drop ?? of_Z 1)%js as [| | |ds] eqn:Hds; try discriminate.
    split; [reflexivity|].
    destruct (bucket_fill this l actor 2 ms 10 dr ds Hnow eq_refl Hdr Hdr0 Hds
                11 0 r ltac:(lia) (holds_absent _ _ _ Hr)) as [H1 H2].
    split; [|exact H2].
    apply (f_equal (map fst)) in H1. rewrite map_map in H1. exact H1.
Qed.

Lemma factor_scales_capacity_witness :
  map blocked
    (successive 11
       (limit (service_at 7000)
          (Bucket {| key := "k"; size := 5; dripRate := None; dripSize := None |})
          "alice" (Some (of_Z 2))) empty_redis).1 =
  [false; false; false; false; false; false; false; false; false; false; true].
Proof.
  destruct (factor_scales_capacity "alice") as [_ H].
  apply (H (service_at 7000) "k" None None 7000 empty_redis); reflexivity.
Defined.

(** ** Decay of a full bucket *)

(** C8: for the bucket [size = 5], [dripRate = 1000], [dripSize = 1] with
    count 5 stored at time [T]: a call before [T + 1000] is blocked and
    writes nothing; the call at [T + 1000] reads that same counter, lets
    one drip out, [max(5 - floor((now - T) / 1000) * 1, 0) = 4], is not
    blocked and stores the count 5 again, stamped [T + 1000]. *)
Theorem bucket_decay this6 this7 actor k T T6 r e :
  let key := createLimitKey (Bucket (bucket5 k)) actor None in
  disabled this6 = false -> disabled this7 = false ->
  now this6 = of_Z T6 -> T <= T6 < T + 1000 ->
  now this7 = of_Z (T + 1000) ->
  data r !! key = Some e -> value e = stored T 5 ->
  let call6 := run (limit this6 (Bucket (bucket5 k)) actor None) r in
  let call7 := run (limit this7 (Bucket (bucket5 k)) actor None) call6.2 in
  blocked call6.1 = true /\ data call6.2 = data r /\
  read_counter key call6.2 = {| t := T; c := 5 |} /\
  Math_max (5 - Math_floor ((now this7 - T) / 1000) * 1)%js 0 = 4 /\
  c (drip this7 (bucket5 k) (read_counter key call6.2)) = 4 /\
  blocked call7.1 = false /\
  value <$> data call7.2 !! key = Some (stored (T + 1000) 5).
Proof.
  intros key Hd6 Hd7 Hnow6 HT6 Hnow7 He Hv call6 call7. subst call6 call7.
  rewrite !limit_Bucket by assumption. cbn [nullish].
  pose proof (read_stored _ _ _ _ _ He Hv) as Hread.
  destruct (bucket_call_blocked this6 (bucket5 k) actor 1 T6 T 5 5 1000 1 r
              Hnow6 eq_refl eq_refl ltac:(lia) eq_refl Hread 5) as (Hb6 & _ & Hr6).
  { rewrite (Z.div_small (T6 - T) 1000) by lia. reflexivity. }
  { lia. }
  fold key in Hr6. rewrite Hr6, read_after_get, Hread.
  assert (Hd : 4 = if 0 <? 5 then Z.max (5 - (T + 1000 - T) / 1000 * 1) 0 else 5).
  { replace (T + 1000 - T) with 1000 by lia. reflexivity. }
  destruct (bucket_call_free this7 (bucket5 k) actor 1 (T + 1000) T 5 5 1000 1
              (redis_get key r).2 Hnow7 eq_refl eq_refl ltac:(lia) eq_refl
              Hread 4 Hd ltac:(lia)) as (Hb7 & _ & px & Hr7).
  pose proof (drip_Z this7 (bucket5 k) actor (T + 1000) T 5 1000 1
                (redis_get key r).2 Hnow7 eq_refl ltac:(lia) eq_refl Hread 4 Hd)
    as Hdrip.
  fold key in Hr7, Hdrip. rewrite read_after_get, Hread in Hdrip.
  repeat split; try assumption.
  - rewrite Hnow7, sub_Z, floor_div_Z by lia.
    replace (T + 1000 - T) with 1000 by lia. reflexivity.
  - now rewrite Hdrip.
  - rewrite Hr7. apply lookup_after_set.
Qed.

Lemma bucket_decay_witness :
  let r :=
    {| data := {[ "rl_alice_k" := {| value := stored 7000 5; px := 5000 |} ]};
       commands := [] |} in
  let call6 := run (limit (service_at 7300) (Bucket (bucket5 "k")) "alice" None) r in
  let call7 :=
    run (limit (service_at 8000) (Bucket (bucket5 "k")) "alice" None) call6.2 in
  blocked call6.1 = true /\ blocked call7.1 = false.
Proof.
  intros r call6 call7.
  destruct (bucket_decay (service_at 7300) (service_at (7000 + 1000)) "alice"
              "k" 7000 7300 r {| value := stored 7000 5; px := 5000 |}
              eq_refl eq_refl eq_refl ltac:(lia) eq_refl eq_refl eq_refl)
    as (H6 & _ & _ & _ & _ & H7 & _).
  split; assumption.
Defined.

(** ** The min-interval limiter *)

Lemma run_limit_min_only this l actor factor r :
  disabled this = false -> hasMinLimit l = true -> hasMaxLimit l = false ->
  let call := run (limit this (Legacy l) actor factor) r in
  let sub := run (limitMin this l actor (factor ?? of_Z 1)%js) r in
  Some (blocked call.1) = blocked <$> sub.1 /\ call.2 = sub.2.
Proof.
  intros Hd Hmin Hmax. rewrite limit_Legacy by assumption.
  rewrite run_limitLegacy, run_limitMin. cbv zeta.
  unfold legacy_lims, legacy_after. rewrite Hmin, Hmax.
  cbn [fst snd app lookup list_lookup mjoin option_join fmap option_fmap
       option_map merge blocked js_or nullish].
  split; [|reflexivity]. now destruct (blocked _).
Qed.

(** C3: for a legacy rule with [minInterval = 5000] and no bucket part,
    [factor = 1], any actor and any instant [ms], starting without a stored
    min counter: the first call is not blocked and stores count 1 stamped
    [ms]; a second call at [ms] is blocked and writes nothing; the third
    call, at [ms + 5000], finds [c >= maxCalls] and
    [now - t >= minInterval], resets the count to 0, is not blocked and
    stores count 1 stamped [ms + 5000]. *)
Theorem min_interval_lazy_reset this1 this3 l actor ms r :
  let key := createLimitKey (Legacy l) actor (Some "min") in
  disabled this1 = false -> disabled this3 = false ->
  now this1 = of_Z ms -> now this3 = of_Z (ms + 5000) ->
  minInterval l = Some (of_Z 5000) ->
  truthy_opt (max l) && truthy_opt (duration l) = false ->
  data r !! key = None ->
  let call1 := run (limit this1 (Legacy l) actor (Some (of_Z 1))) r in
  let call2 := run (limit this1 (Legacy l) actor (Some (of_Z 1))) call1.2 in
  let call3 := run (limit this3 (Legacy l) actor (Some (of_Z 1))) call2.2 in
  blocked call1.1 = false /\
  value <$> data call1.2 !! key = Some (stored ms 1) /\
  blocked call2.1 = true /\
  data call2.2 = data call1.2 /\
  (let counter := read_counter key call2.2 in
   (c counter >= Math_max (Math_ceil 1) 1)%js = true /\
   (now this3 - t counter >= 5000)%js = true /\
   c (expire this3 l 1 counter) = 0) /\
  blocked call3.1 = false /\
  value <$> data call3.2 !! key = Some (stored (ms + 5000) 1).
Proof.
  intros key Hd1 Hd3 Hnow1 Hnow3 Hmi Hmax Hr call1 call2 call3.
  assert (Hmin : hasMinLimit l = true) by (unfold hasMinLimit; now rewrite Hmi).
  (* first call *)
  destruct (run_limit_min_only this1 l actor (Some (of_Z 1)) r Hd1 Hmin Hmax)
    as [Hb1 Hs1]. fold call1 in Hb1, Hs1. cbn [nullish] in Hb1, Hs1.
  destruct (min_call_first this1 l actor 1 ms 0 0 1 r Hnow1 eq_refl
              (read_absent _ _ Hr) ltac:(lia)) as (Hm1 & px1 & Hr1).
  fold key in Hr1. rewrite Hm1 in Hb1. rewrite Hr1 in Hs1. injection Hb1 as Hb1.
  (* second call *)
  assert (Hread1 : read_counter key call1.2 = {| t := of_Z ms; c := of_Z 1 |}).
  { rewrite Hs1, read_after_set. apply parse_stringify_Z. }
  destruct (run_limit_min_only this1 l actor (Some (of_Z 1)) call1.2 Hd1 Hmin
              Hmax) as [Hb2 Hs2]. fold call2 in Hb2, Hs2.
  cbn [nullish] in Hb2, Hs2.
  destruct (min_call_blocked this1 l actor 1 ms ms 1 1 call1.2 Hnow1 eq_refl
              Hread1 5000 Hmi ltac:(lia) ltac:(lia)) as (Hm2 & Hr2).
  fold key in Hr2. rewrite Hm2 in Hb2. rewrite Hr2 in Hs2. injection Hb2 as Hb2.
  (* third call *)
  assert (Hread2 : read_counter key call2.2 = {| t := of_Z ms; c := of_Z 1 |}).
  { now rewrite Hs2, read_after_get. }
  destruct (run_limit_min_only this3 l actor (Some (of_Z 1)) call2.2 Hd3 Hmin
              Hmax) as [Hb3 Hs3]. fold call3 in Hb3, Hs3.
  cbn [nullish] in Hb3, Hs3.
  destruct (min_call_reset this3 l actor 1 (ms + 5000) ms 1 1 call2.2 Hnow3
              eq_refl Hread2 5000 Hmi ltac:(lia) ltac:(lia))
    as (He3 & Hm3 & px3 & Hr3).
  fold key in Hr3, He3. rewrite Hm3 in Hb3. rewrite Hr3 in Hs3.
  injection Hb3 as Hb3.
  repeat split; try assumption.
  - rewrite Hs1. apply lookup_after_set.
  - now rewrite Hs2.
  - now rewrite Hread2.
  - rewrite Hread2, Hnow3. cbn [t]. rewrite sub_Z, geb_Z.
    apply Z.leb_le. lia.
  - rewrite Hs3. apply lookup_after_set.
Qed.

Lemma min_interval_lazy_reset_witness :
  let l := min_only "k" 5000 in
  let call1 :=
    run (limit (service_at 7000) (Legacy l) "alice" (Some (of_Z 1))) empty_redis in
  let call2 :=
    run (limit (service_at 7000) (Legacy l) "alice" (Some (of_Z 1))) call1.2 in
  let call3 :=
    run (limit (service_at 12000) (Legacy l) "alice" (Some (of_Z 1))) call2.2 in
  blocked call1.1 = false /\ blocked call2.1 = true /\ blocked call3.1 = false.
Proof.
  intros l call1 call2 call3.
  destruct (min_interval_lazy_reset (service_at 7000) (service_at (7000 + 5000))
              l "alice" 7000 empty_redis eq_refl eq_refl eq_refl eq_refl
              eq_refl eq_refl eq_refl)
    as (H1 & _ & H2 & _ & _ & H3 & _).
  repeat split; assumption.
Defined.

(** ** Factor zero *)

Lemma mul_zero s : (Fin s * of_Z 0)%js = of_Z 0.
Proof. apply fin_Z. apply Qmult_0_r. Qed.

Lemma read_counter_finite k r :
  exists tq cq, read_counter k r = {| t := Fin tq; c := Fin cq |}.
Proof.
  unfold read_counter. destruct (value <$> data r !! k) as [[jt jc]|]; simpl.
  - unfold JSON_parse. simpl. destruct jt, jc; simpl; eauto.
  - eauto.
Qed.

Lemma Math_max_0_ge a : a <> NaN -> (Math_max a 0 >= 0)%js = true.
Proof.
  destruct a as [| | |q]; try reflexivity; [congruence|]. intros _. simpl.
  destruct (Qle_bool q _) eqn:E; [reflexivity|].
  unfold geb, leb. now apply Qle_bool_total.
Qed.

(** With capacity 0 every count that is not negative blocks. *)
Lemma bucket_blocked_zero this lb counter s X tq cq dr ds :
  size lb = Fin s -> now this = Fin X ->
  (dripRate lb ?? of_Z 1000)%js = Fin dr -> ~ (dr == 0)%Q ->
  (dripSize lb ?? of_Z 1)%js = Fin ds ->
  counter = {| t := Fin tq; c := Fin cq |} ->
  (c counter >= 0)%js = true ->
  bucket_blocked this lb 0 counter = true.
Proof.
  intros Hs Hnow Hdr Hdr0 Hds -> Hc. unfold bucket_blocked, drip.
  rewrite Hs, mul_zero, Hnow, Hdr, Hds. cbn [c t].
  destruct (Fin cq > 0)%js; [|exact Hc]. cbn [c].
  apply Math_max_0_ge. unfold div. cbn [sub].
  destruct (Qeq_bool dr 0) eqn:E; [now apply Qeq_bool_iff in E|].
  discriminate.
Qed.

(** C10: with [factor = 0] the two limiters part ways.  The bucket limiter
    blocks: a rule of finite size has capacity [size * 0 = 0], which the
    count 0 of an absent counter already reaches (and so does any stored
    count that is not negative, for a finite clock, a finite non-zero
    [dripRate] and a finite [dripSize]); nothing is written.  The
    min-interval limiter has [maxCalls = max(ceil(0), 1) = 1]: from an
    absent counter the first call passes, a call less than [minInterval]
    later is blocked, and a call [minInterval] or more later passes. *)
Theorem factor_zero_edge (actor : string) :
  (forall this lb r,
     disabled this = false -> isFinite (size lb) = true ->
     data r !! createLimitKey (Bucket lb) actor None = None ->
     let call := run (limit this (Bucket lb) actor (Some (of_Z 0))) r in
     (size lb * 0)%js = 0 /\ blocked call.1 = true /\ data call.2 = data r) /\
  (forall this lb r,
     disabled this = false -> isFinite (size lb) = true ->
     isFinite (now this) = true ->
     isFinite (dripRate lb ?? of_Z 1000)%js = true ->
     truthy (dripRate lb ?? of_Z 1000)%js = true ->
     isFinite (dripSize lb ?? of_Z 1)%js = true ->
     (forall e, data r !! createLimitKey (Bucket lb) actor None = Some e ->
                (parse_number (json_c (value e)) >= 0)%js = true) ->
     let call := run (limit this (Bucket lb) actor (Some (of_Z 0))) r in
     blocked call.1 = true /\ data call.2 = data r) /\
  Math_max (Math_ceil 0) 1 = 1 /\
  (forall this ll r,
     data r !! createLimitKey (Legacy ll) actor (Some "min") = None ->
     blocked <$> (run (limitMin this ll actor 0) r).1 = Some false) /\
  (forall this1 this2 ll r X1 X2 mi,
     now this1 = of_Z X1 -> now this2 = of_Z X2 ->
     minInterval ll = Some (of_Z mi) ->
     data r !! createLimitKey (Legacy ll) actor (Some "min") = None ->
     let call1 := run (limitMin this1 ll actor 0) r in
     let call2 := run (limitMin this2 ll actor 0) call1.2 in
     (X2 - X1 < mi -> blocked <$> call2.1 = Some true) /\
     (mi <= X2 - X1 -> blocked <$> call2.1 = Some false)).
Proof.
  split; [|split; [|split; [reflexivity|split]]].
  - intros this lb r Hd Hfin Hr call. subst call.
    rewrite limit_Bucket by assumption. cbn [nullish].
    destruct (size lb) as [| | |s] eqn:Hs; try discriminate.
    rewrite run_limitBucket. cbv zeta. cbn [fst snd].
    rewrite (read_absent _ _ Hr). unfold after_call, bucket_info.
    cbn [blocked]. unfold bucket_blocked, drip. cbn [c].
    rewrite Hs, mul_zero. now repeat split.
  - intros this lb r Hd Hfin Hnow Hrf Hrt Hdf Hst call. subst call.
    rewrite limit_Bucket by assumption. cbn [nullish].
    destruct (size lb) as [| | |s] eqn:Hs; try discriminate.
    destruct (now this) as [| | |X] eqn:HX; try discriminate.
    destruct (finite_nonzero _ Hrf Hrt) as (dr & Hdr & Hdr0).
    destruct (dripSize lb ?? of_Z 1)%js as [| | |ds] eqn:Hds; try discriminate.
    rewrite run_limitBucket. cbv zeta. cbn [fst snd].
    destruct (read_counter_finite (createLimitKey (Bucket lb) actor None) r)
      as (tq & cq & Hread).
    assert (Hb : bucket_blocked this lb 0
                   (read_counter (createLimitKey (Bucket lb) actor None) r)
                 = true).
    { apply (bucket_blocked_zero this lb _ s X tq cq dr ds); try assumption.
      unfold read_counter in *.
      destruct (data r !! _) as [e|] eqn:He; [|reflexivity].
      apply (Hst e eq_refl). }
    unfold after_call, bucket_info. cbn [blocked]. now rewrite Hb.
  - intros this ll r Hr.
    apply (min_free_below_max this ll actor 0 0 0 1 r eq_refl
             (read_absent _ _ Hr)). lia.
  - intros this1 this2 ll r X1 X2 mi Hnow1 Hnow2 Hmi Hr call1 call2.
    destruct (min_call_first this1 ll actor 0 X1 0 0 1 r Hnow1 eq_refl
                (read_absent _ _ Hr) ltac:(lia)) as (_ & px & Hr1).
    assert (Hread : read_counter
                      (createLimitKey (Legacy ll) actor (Some "min")) call1.2
                    = {| t := of_Z X1; c := of_Z 1 |}).
    { subst call1. rewrite Hr1, read_after_set. apply parse_stringify_Z. }
    split; intros HX.
    + now destruct (min_call_blocked this2 ll actor 0 X2 X1 1 1 call1.2 Hnow2
                      eq_refl Hread mi Hmi ltac:(lia) HX).
    + now destruct (min_call_reset this2 ll actor 0 X2 X1 1 1 call1.2 Hnow2
                      eq_refl Hread mi Hmi ltac:(lia) HX) as (_ & H & _).
Qed.

Lemma factor_zero_edge_witness :
  blocked
    (run (limit (service_at 7000) (Bucket (bucket5 "k")) "alice"
            (Some (of_Z 0))) empty_redis).1 = true /\
  blocked <$>
    (run (limitMin (service_at 7000) (min_only "k" 5000) "alice" 0)
       empty_redis).1 = Some false /\
  blocked <$>
    (run (limitMin (service_at 9000) (min_only "k" 5000) "alice" 0)
       (run (limitMin (service_at 7000) (min_only "k" 5000) "alice" 0)
          empty_redis).2).1 = Some true /\
  blocked <$>
    (run (limitMin (service_at 12000) (min_only "k" 5000) "alice" 0)
       (run (limitMin (service_at 7000) (min_only "k" 5000) "alice" 0)
          empty_redis).2).1 = Some false.
Proof.
  destruct (factor_zero_edge "alice") as (Ha & _ & _ & Hb & Hc).
  split; [|split; [|split]].
  - now apply (Ha (service_at 7000) (bucket5 "k") empty_redis).
  - now apply (Hb (service_at 7000) (min_only "k" 5000) empty_redis).
  - apply (Hc (service_at 7000) (service_at 9000) (min_only "k" 5000)
             empty_redis 7000 9000 5000); try reflexivity; lia.
  - apply (Hc (service_at 7000) (service_at 12000) (min_only "k" 5000)
             empty_redis 7000 12000 5000); try reflexivity; lia.
Defined.

(** ** Recognising a [LimitInfo] *)

Lemma isLimitInfo_fields props :
  isLimitInfo (JsObject props) =
  forallb (fun k => field_ok (field_type k) k props) LimitInfo_fields.
Proof.
  unfold isLimitInfo, LimitInfo_fields, forallb, field_ok, field_type.
  cbn [is_nullish typeof JsType_eqb negb String.eqb Ascii.eqb Bool.eqb].
  repeat match goal with
         | |- context [has_property ?k ?v] =>
             destruct (has_property k v); cbn [negb orb andb];
             [|reflexivity]
         | |- context [JsType_eqb ?a ?b] =>
             destruct (JsType_eqb a b); cbn [negb orb andb]; [|reflexivity]
         end.
  reflexivity.
Qed.

Lemma field_ok_lookup ty k props :
  field_ok ty k props = true <->
  exists v, props !! k = Some v /\ typeof v = ty.
Proof.
  unfold field_ok, has_property, get_property.
  destruct (props !! k) as [v|]; simpl.
  - split.
    + intros H. exists v. split; [reflexivity|].
      now destruct v, ty.
    + intros (? & [= <-] & <-). now destruct v.
  - split; [discriminate | now intros (? & ? & _)].
Qed.

Lemma isLimitInfo_lookup props :
  isLimitInfo (JsObject props) = true <->
  forall k, k ∈ LimitInfo_fields ->
            exists v, props !! k = Some v /\ typeof v = field_type k.
Proof.
  rewrite isLimitInfo_fields, forallb_forall. split.
  - intros H k Hk. apply field_ok_lookup, H. now apply list_elem_of_In.
  - intros H k Hk. apply field_ok_lookup, H. now apply list_elem_of_In.
Qed.

Lemma LimitInfo_object_lookup info k :
  k ∈ LimitInfo_fields ->
  exists v, LimitInfo_object info !! k = Some v /\ typeof v = field_type k.
Proof.
  unfold LimitInfo_fields. rewrite !elem_of_cons, elem_of_nil.
  intros [->|[->|[->|[->|[->|[->|[]]]]]]]; eexists; split;
    try (vm_compute; reflexivity); reflexivity.
Qed.

(** X1: [isLimitInfo] accepts the object of every [LimitInfo], also when it
    carries further properties; it rejects that object once any of the six
    properties is deleted or holds a value of another type (such as [null]
    or [undefined]), and it rejects everything that is not an object:
    [undefined], [null], booleans, numbers, strings and functions. *)
Theorem isLimitInfo_sound_complete :
  (forall info extra,
     isLimitInfo (JsObject (LimitInfo_object info ∪ extra)) = true) /\
  (forall info k,
     k ∈ LimitInfo_fields ->
     isLimitInfo (JsObject (delete k (LimitInfo_object info))) = false) /\
  (forall info k v,
     k ∈ LimitInfo_fields -> typeof v <> field_type k ->
     isLimitInfo (JsObject (<[k := v]> (LimitInfo_object info))) = false) /\
  (forall v, (forall props, v <> JsObject props) -> isLimitInfo v = false).
Proof.
  repeat split.
  - intros info extra. apply isLimitInfo_lookup. intros k Hk.
    destruct (LimitInfo_object_lookup info k Hk) as (v & Hv & Hty).
    exists v. split; [|exact Hty]. now apply lookup_union_Some_l.
  - intros info k Hk. apply not_true_is_false. intros H.
    destruct (proj1 (isLimitInfo_lookup _) H k Hk) as (v & Hv & _).
    now rewrite lookup_delete_eq in Hv.
  - intros info k v Hk Hty. apply not_true_is_false. intros H.
    destruct (proj1 (isLimitInfo_lookup _) H k Hk) as (v' & Hv & Hty').
    rewrite lookup_insert_eq in Hv. congruence.
  - intros v Hv. destruct v; try reflexivity. now destruct (Hv props).
Qed.

Lemma isLimitInfo_sound_complete_witness :
  isLimitInfo
    (JsObject
       (delete "resetMs"
          (LimitInfo_object
             (run (limit (service_at 7000) (Bucket (bucket5 "k")) "alice" None)
                empty_redis).1))) = false /\
  isLimitInfo
    (JsObject
       (<["remaining" := JsNull]>
          (LimitInfo_object
             (run (limit (service_at 7000) (Bucket (bucket5 "k")) "alice" None)
                empty_redis).1))) = false /\
  isLimitInfo (JsString "blocked") = false.
Proof.
  destruct isLimitInfo_sound_complete as (_ & Hdel & Hty & Hno).
  split; [|split].
  - apply Hdel. unfold LimitInfo_fields. set_solver.
  - apply Hty; [unfold LimitInfo_fields; set_solver | discriminate].
  - apply Hno. discriminate.
Defined.

(** ** A legacy rule that configures nothing *)

(** X2: a legacy rule that has neither a truthy [minInterval] nor both a
    truthy [max] and a truthy [duration] (so also a rule with [max] but no
    [duration]) is not enforced: [limit] never blocks, reports
    [remaining = 1] and all resets 0, and sends no command to the store. *)
Theorem unconfigured_legacy_passes this l actor factor r :
  disabled this = false ->
  truthy_opt (minInterval l) = false ->
  truthy_opt (max l) && truthy_opt (duration l) = false ->
  run (limit this (Legacy l) actor factor) r =
  ({| blocked := false; remaining := 1;
      resetSec := 0; resetMs := 0; fullResetSec := 0; fullResetMs := 0 |}, r).
Proof.
  intros Hd Hmin Hmax. rewrite limit_Legacy by assumption.
  rewrite run_limitLegacy. unfold legacy_lims, legacy_after.
  unfold hasMinLimit, hasMaxLimit. now rewrite Hmin, Hmax.
Qed.

Lemma unconfigured_legacy_passes_witness :
  let l :=
    {| legacy_key := "k"; legacy_type := type_legacy; duration := None;
       max := Some (of_Z 10); minInterval := Some (of_Z 0) |} in
  run (limit (service_at 7000) (Legacy l) "alice" None) empty_redis =
  ({| blocked := false; remaining := 1;
      resetSec := 0; resetMs := 0; fullResetSec := 0; fullResetMs := 0 |},
   empty_redis).
Proof.
  intros l.
  apply (unconfigured_legacy_passes (service_at 7000) l "alice" None
           empty_redis); reflexivity.
Defined.

(** ** What a call touches *)

Lemma after_call_lookup k k' b counter ms r :
  k <> k' -> data (after_call k' b counter ms r) !! k = data r !! k.
Proof.
  intros Hk. unfold after_call. destruct b; [reflexivity|]. simpl.
  now apply lookup_insert_ne.
Qed.

Lemma extends_refl P r : extends P r r.
Proof. exists []. now rewrite app_nil_r. Qed.

Lemma extends_trans P r1 r2 r3 :
  extends P r1 r2 -> extends P r2 r3 -> extends P r1 r3.
Proof.
  intros (c1 & H1 & F1) (c2 & H2 & F2). exists (c1 ++ c2).
  rewrite H2, H1, app_assoc. split; [reflexivity|].
  apply Forall_app. now split.
Qed.

Lemma extends_get (P : string -> Prop) k r :
  P k -> extends P r (redis_get k r).2.
Proof. intros Hk. exists [GET k]. split; [reflexivity|]. now repeat constructor. Qed.

Lemma extends_after_call (P : string -> Prop) k b counter ms r :
  P k -> extends P r (after_call k b counter ms r).
Proof.
  intros Hk. unfold after_call. destruct b; [apply extends_refl|].
  eexists. split; [reflexivity|]. now repeat constructor.
Qed.

Lemma legacy_after_lookup this l actor factor r k :
  k <> createLimitKey (Legacy l) actor (Some "min") ->
  k <> createLimitKey (Bucket (legacy_bucket l)) actor None ->
  data (legacy_after this l actor factor r) !! k = data r !! k.
Proof.
  intros Hm Hb. unfold legacy_after.
  destruct (hasMinLimit l), (hasMaxLimit l); cbv zeta;
    rewrite ?after_call_lookup by assumption; reflexivity.
Qed.

Lemma legacy_after_extends this l actor factor r :
  extends (fun k => k = createLimitKey (Bucket (legacy_bucket l)) actor None \/
                    k = createLimitKey (Legacy l) actor (Some "min"))
    r (legacy_after this l actor factor r).
Proof.
  unfold legacy_after.
  destruct (hasMinLimit l), (hasMaxLimit l); cbv zeta;
    repeat first
      [ apply extends_refl
      | eapply extends_trans;
        [|apply extends_after_call; auto; fail]
      | eapply extends_trans; [|apply extends_get; auto; fail] ].
Qed.

(** X3: a call of [limit] leaves every key of the store other than
    ["rl_" ++ actor ++ "_" ++ rule.key] and that key followed by ["_min"] as
    it was, and it only appends to the commands sent, each of them a [GET] or
    [SET] of one of these two keys. *)
Theorem limit_frame this l actor factor r k :
  let bk := "rl_" +:+ actor +:+ "_" +:+ limit_key l in
  let mk := "rl_" +:+ actor +:+ "_" +:+ limit_key l +:+ "_" +:+ "min" in
  let after := (run (limit this l actor factor) r).2 in
  (k <> bk -> k <> mk -> data after !! k = data r !! k) /\
  exists cmds,
    commands after = commands r ++ cmds /\
    Forall (fun cmd => command_key cmd = bk \/ command_key cmd = mk) cmds.
Proof.
  intros bk mk after. subst after. unfold limit.
  destruct (disabled this).
  { split; [reflexivity|]. apply (extends_refl (fun k => k = bk \/ k = mk)). }
  destruct l as [lb|ll].
  - rewrite run_limitBucket. cbv zeta. cbn [snd]. split.
    + intros Hb _. now rewrite after_call_lookup.
    + apply (extends_trans (fun k => k = bk \/ k = mk) _
               (redis_get (createLimitKey (Bucket lb) actor None) r).2).
      * apply extends_get. now left.
      * apply extends_after_call. now left.
  - rewrite run_limitLegacy. cbn [snd]. split.
    + intros Hb Hm. now apply legacy_after_lookup.
    + apply legacy_after_extends.
Qed.

Lemma limit_frame_witness :
  let r :=
    {| data := {[ "rl_bob_k" := {| value := stored 7000 5; px := 5000 |} ]};
       commands := [] |} in
  data (run (limit (service_at 7000) (Bucket (bucket5 "k")) "alice" None) r).2
    !! "rl_bob_k" = data r !! "rl_bob_k".
Proof.
  intros r.
  destruct (limit_frame (service_at 7000) (Bucket (bucket5 "k")) "alice" None r
              "rl_bob_k") as [H _].
  apply H; discriminate.
Defined.

(** ** The two sub-limiters of a legacy rule do not interfere *)

Lemma read_after_call_ne k k' b counter ms r :
  k <> k' -> read_counter k (after_call k' b counter ms r) = read_counter k r.
Proof.
  intros Hk. unfold read_counter. now rewrite after_call_lookup.
Qed.

Lemma data_after_call_comm k1 b1 c1 ms1 k2 b2 c2 ms2 r :
  k1 <> k2 ->
  data (after_call k1 b1 c1 ms1 (after_call k2 b2 c2 ms2 r)) =
  data (after_call k2 b2 c2 ms2 (after_call k1 b1 c1 ms1 r)).
Proof.
  intros Hk. unfold after_call. destruct b1, b2; try reflexivity. simpl.
  now apply insert_insert_ne.
Qed.

Lemma data_after_call_get k b counter ms k' r :
  data (after_call k b counter ms (redis_get k' r).2) =
  data (after_call k b counter ms r).
Proof. unfold after_call. now destruct b. Qed.

Lemma keys_differ lb ll actor :
  key lb = legacy_key ll ->
  createLimitKey (Bucket lb) actor None <>
  createLimitKey (Legacy ll) actor (Some "min").
Proof.
  intros Hk. unfold createLimitKey. simpl. rewrite Hk.
  apply bucket_key_ne_min_key.
Qed.

(** X4: the bucket limiter and the min-interval limiter of one rule key and
    actor evolve independently: running either one first does not change
    what the other returns, and both orders leave the same stored data. *)
Theorem sub_limiters_commute this ll lb actor factor r :
  key lb = legacy_key ll ->
  let m := run (limitMin this ll actor factor) r in
  let b := run (limitBucket this lb actor factor) r in
  let b_after_m := run (limitBucket this lb actor factor) m.2 in
  let m_after_b := run (limitMin this ll actor factor) b.2 in
  b_after_m.1 = b.1 /\ m_after_b.1 = m.1 /\
  data b_after_m.2 = data m_after_b.2.
Proof.
  intros Hk m b b_after_m m_after_b. subst m b b_after_m m_after_b.
  pose proof (keys_differ lb ll actor Hk) as Hne.
  rewrite !run_limitBucket, !run_limitMin. cbv zeta. cbn [fst snd].
  rewrite !read_after_call_ne, !read_after_get by congruence.
  repeat split.
  rewrite !data_after_call_get.
  rewrite (data_after_call_comm (createLimitKey (Bucket lb) actor None))
    by assumption.
  unfold after_call at 1 3.
  destruct (bucket_blocked _ _ _ _), (min_blocked _ _ _ _); cbn [data redis_set];
    now rewrite ?data_after_call_get.
Qed.

Lemma sub_limiters_commute_witness :
  let this := service_at 7000 in
  let ll :=
    {| legacy_key := "k"; legacy_type := type_legacy;
       duration := Some (of_Z 10000); max := Some (of_Z 10);
       minInterval := Some (of_Z 1000) |} in
  let lb := legacy_bucket ll in
  (run (limitBucket this lb "alice" 1)
     (run (limitMin this ll "alice" 1) empty_redis).2).1 =
  (run (limitBucket this lb "alice" 1) empty_redis).1.
Proof.
  intros this ll lb.
  apply (sub_limiters_commute this ll lb "alice" 1 empty_redis). reflexivity.
Defined.

(** ** [Promise.all] against running the sub-limiters in turn *)

(** X5: for a legacy rule with both parts, awaiting the two sub-limiters
    together gives what running the min-interval limiter to its end and
    then the bucket limiter gives: the same merged result and the same
    stored data.  Only the order of the commands differs: both reads are
    sent before either write. *)
Theorem legacy_as_sequence this l actor factor r :
  disabled this = false ->
  truthy_opt (minInterval l) = true ->
  truthy_opt (max l) && truthy_opt (duration l) = true ->
  let f := (factor ?? of_Z 1)%js in
  let m := run (limitMin this l actor f) r in
  let b := run (limitBucket this (legacy_bucket l) actor f) m.2 in
  let call := run (limit this (Legacy l) actor factor) r in
  call.1 = merged m.1 (Some b.1) /\
  data call.2 = data b.2 /\
  gets (commands call.2) = gets (commands b.2) /\
  sets (commands call.2) = sets (commands b.2) /\
  exists writes_m writes_b,
    commands b.2 =
      commands r
      ++ [GET (createLimitKey (Legacy l) actor (Some "min"))] ++ writes_m
      ++ [GET (createLimitKey (Bucket (legacy_bucket l)) actor None)]
      ++ writes_b /\
    commands call.2 =
      commands r
      ++ [GET (createLimitKey (Legacy l) actor (Some "min"));
          GET (createLimitKey (Bucket (legacy_bucket l)) actor None)]
      ++ writes_m ++ writes_b.
Proof.
  intros Hd Hmin Hmax f m b call. subst m b call.
  rewrite limit_Legacy by assumption. fold f.
  rewrite run_limitLegacy, run_limitBucket, run_limitMin. cbv zeta.
  cbn [fst snd]. unfold legacy_lims, legacy_after, hasMinLimit, hasMaxLimit.
  rewrite Hmin, Hmax. cbv zeta.
  pose proof (keys_differ (legacy_bucket l) l actor eq_refl) as Hne.
  rewrite read_after_call_ne, !read_after_get by congruence.
  cbn [app lookup list_lookup mjoin option_join].
  split; [apply merge_both|].
  unfold after_call.
  destruct (min_blocked _ _ _ _), (bucket_blocked _ _ _ _);
    cbn [data commands redis_get redis_set snd];
    rewrite ?gets_app, ?sets_app; cbn [gets sets omap];
    rewrite <- ?app_assoc; cbn [app];
    (split; [reflexivity|]); (split; [reflexivity|]);
    (split; [reflexivity|]).
  - now exists [], [].
  - now eexists [], [_].
  - now eexists [_], [].
  - now eexists [_], [_].
Qed.

Lemma legacy_as_sequence_witness :
  let this := service_at 7000 in
  let l :=
    {| legacy_key := "k"; legacy_type := type_legacy;
       duration := Some (of_Z 10000); max := Some (of_Z 10);
       minInterval := Some (of_Z 1000) |} in
  data (run (limit this (Legacy l) "alice" None) empty_redis).2 =
  data (run (limitBucket this (legacy_bucket l) "alice" 1)
          (run (limitMin this l "alice" 1) empty_redis).2).2.
Proof.
  intros this l.
  now destruct (legacy_as_sequence this l "alice" None empty_redis eq_refl
                  eq_refl eq_refl) as (_ & H & _).
Defined.

(** ** A call rejected by [minInterval] still fills the bucket *)

(** X6: for a legacy rule with both parts, when the min-interval limiter
    blocks and the bucket limiter does not, [limit] returns
    [blocked = true] and the bucket counter is written all the same, one
    higher than the count left after the drips: the rejected call uses up a
    slot of the bucket. *)
Theorem rejected_call_fills_bucket this l actor factor r :
  disabled this = false ->
  truthy_opt (minInterval l) = true ->
  truthy_opt (max l) && truthy_opt (duration l) = true ->
  let f := (factor ?? of_Z 1)%js in
  let lb := legacy_bucket l in
  let kb := createLimitKey (Bucket lb) actor None in
  blocked <$> (run (limitMin this l actor f) r).1 = Some true ->
  blocked (run (limitBucket this lb actor f) r).1 = false ->
  let call := run (limit this (Legacy l) actor factor) r in
  blocked call.1 = true /\
  value <$> data call.2 !! kb =
    Some (JSON_stringify
            {| t := now this;
               c := (c (drip this lb (read_counter kb r)) + 1)%js |}) /\
  sets (commands call.2) =
    sets (commands r) ++
    [JSON_stringify
       {| t := now this; c := (c (drip this lb (read_counter kb r)) + 1)%js |}].
Proof.
  intros Hd Hmin Hmax f lb kb Hm Hb call. subst call.
  rewrite run_limitMin in Hm. rewrite run_limitBucket in Hb.
  cbv zeta in Hm, Hb. cbn [fst fmap option_fmap option_map] in Hm, Hb.
  unfold min_info, bucket_info in Hm, Hb. cbn [blocked] in Hm, Hb.
  injection Hm as Hm. fold lb kb in Hb.
  rewrite limit_Legacy by assumption. fold f.
  rewrite run_limitLegacy. cbn [fst snd].
  unfold legacy_lims, legacy_after, hasMinLimit, hasMaxLimit.
  rewrite Hmin, Hmax. cbv zeta. fold lb kb.
  cbn [app lookup list_lookup mjoin option_join merge fmap option_fmap
       option_map blocked min_info bucket_info js_or nullish].
  rewrite Hm. split; [reflexivity|].
  unfold after_call, bucket_next. rewrite ?Hm, Hb. cbn [negb].
  split; [apply lookup_after_set|].
  cbn [redis_set redis_get snd commands]. rewrite !sets_app.
  cbn [sets omap]. now rewrite !app_nil_r.
Qed.

Lemma rejected_call_fills_bucket_witness :
  let this := service_at 7000 in
  let l :=
    {| legacy_key := "k"; legacy_type := type_legacy;
       duration := Some (of_Z 10000); max := Some (of_Z 10);
       minInterval := Some (of_Z 1000) |} in
  let r :=
    {| data :=
         {[ "rl_alice_k_min" := {| value := stored 7000 1; px := 1000 |} ]}
         ∪ {[ "rl_alice_k" := {| value := stored 7000 1; px := 1000 |} ]};
       commands := [] |} in
  let call := run (limit this (Legacy l) "alice" None) r in
  blocked call.1 = true /\
  value <$> data call.2 !! "rl_alice_k" = Some (stored 7000 2).
Proof.
  intros this l r call.
  destruct (rejected_call_fills_bucket this l "alice" None r eq_refl eq_refl
              eq_refl) as (H1 & H2 & _).
  - vm_compute. reflexivity.
  - vm_compute. reflexivity.
  - split; [exact H1|]. etransitivity; [exact H2|]. vm_compute. reflexivity.
Defined.

(** ** The expiry given to a write *)

Lemma bucket_free_commands this lb actor factor r :
  let call := run (limitBucket this lb actor factor) r in
  blocked call.1 = false ->
  exists v,
    commands call.2 =
    commands r ++
    [GET (createLimitKey (Bucket lb) actor None);
     SET (createLimitKey (Bucket lb) actor None) v (fullResetMs call.1)].
Proof.
  intros call. subst call. rewrite run_limitBucket.
  cbv zeta. cbn [fst snd]. unfold bucket_info at 1. cbn [blocked].
  intros Hb. unfold after_call. rewrite Hb.
  cbn [redis_set redis_get snd commands fullResetMs bucket_info].
  rewrite <- app_assoc. eexists. reflexivity.
Qed.

(** X7: a bucket call that is not blocked sends, after its [GET], one [SET]
    whose expiry is the [fullResetMs] it returns.  A min-interval call that
    is not blocked sends one [SET] whose expiry is the [resetMs] it returns,
    and that is 0 whenever it returns [remaining >= 1]: with calls to spare
    the counter is written with [PX 0]. *)
Theorem write_expiry (actor : string) :
  (forall this lb factor r,
     let call := run (limitBucket this lb actor factor) r in
     blocked call.1 = false ->
     exists v,
       commands call.2 =
       commands r ++
       [GET (createLimitKey (Bucket lb) actor None);
        SET (createLimitKey (Bucket lb) actor None) v (fullResetMs call.1)]) /\
  (forall this ll factor r info,
     let call := run (limitMin this ll actor factor) r in
     call.1 = Some info -> blocked info = false ->
     (exists v,
        commands call.2 =
        commands r ++
        [GET (createLimitKey (Legacy ll) actor (Some "min"));
         SET (createLimitKey (Legacy ll) actor (Some "min")) v (resetMs info)])
     /\ ((remaining info >= 1)%js = true -> resetMs info = 0)).
Proof.
  split.
  - intros this lb factor r. apply bucket_free_commands.
  - intros this ll factor r info call. subst call. rewrite run_limitMin.
    cbv zeta. cbn [fst snd]. intros [= <-]. unfold min_info at 1.
    cbn [blocked]. intros Hb. unfold after_call. rewrite Hb. split.
    + cbn [redis_set redis_get snd commands resetMs min_info].
      rewrite <- app_assoc. eexists. reflexivity.
    + intros H. now apply min_reset_zero in H.
Qed.

Lemma write_expiry_witness :
  exists v,
    commands
      (run (limitMin (service_at 7000) (min_only "k" 5000) "alice" 2)
         empty_redis).2 =
    [GET "rl_alice_k_min"; SET "rl_alice_k_min" v 0].
Proof.
  destruct (write_expiry "alice") as [_ H].
  destruct (H (service_at 7000) (min_only "k" 5000) 2 empty_redis _ eq_refl
              eq_refl) as [[v Hv] H0].
  exists v. rewrite Hv, H0; reflexivity.
Defined.

(** ** Seconds are milliseconds rounded up *)

Lemma ceil_div_fin x :
  Math_ceil (Fin x / 1000)%js = of_Z (Qceiling (x / inject_Z 1000)).
Proof.
  unfold div, of_Z. change (Qeq_bool (inject_Z 1000) 0) with false.
  cbv iota. unfold fin, Math_ceil, of_Z.
  now rewrite (Qceiling_comp _ _ (Qred_correct _)).
Qed.

Lemma Qceiling_div_le p q :
  (p <= q)%Q ->
  Qceiling (p / inject_Z 1000) <= Qceiling (q / inject_Z 1000).
Proof.
  intros H. apply Qceiling_resp_le. unfold Qdiv.
  apply Qmult_le_compat_r; [exact H|]. discriminate.
Qed.

Lemma ceil_div_max a b :
  Math_ceil (Math_max a b / 1000)%js =
  Math_max (Math_ceil (a / 1000)%js) (Math_ceil (b / 1000)%js).
Proof.
  destruct a as [| | |p], b as [| | |q]; try reflexivity;
    rewrite ?ceil_div_fin; try reflexivity.
  cbn [Math_max leb]. rewrite Math_max_Z.
  destruct (Qle_bool p q) eqn:E; rewrite ceil_div_fin; f_equal.
  - apply Qle_bool_iff, Qceiling_div_le in E. lia.
  - apply Qle_bool_total, Qle_bool_iff, Qceiling_div_le in E. lia.
Qed.

Lemma min_info_seconds this limit factor counter :
  let info := min_info this limit factor counter in
  resetSec info = Math_ceil (resetMs info / 1000)%js.
Proof.
  simpl. unfold min_resetMs. now destruct (_ < _)%js.
Qed.

(** X8: in every [LimitInfo] that [limit] returns, [resetSec] is [resetMs]
    divided by 1000 and rounded up, and [fullResetSec] is [fullResetMs]
    divided by 1000 and rounded up; merging the sub-limiters of a legacy
    rule keeps this. *)
Theorem seconds_round_up this l actor factor r :
  let info := (run (limit this l actor factor) r).1 in
  resetSec info = Math_ceil (resetMs info / 1000)%js /\
  fullResetSec info = Math_ceil (fullResetMs info / 1000)%js.
Proof.
  unfold limit. destruct (disabled this); [now split|].
  destruct l as [lb|ll].
  - rewrite run_limitBucket. now split.
  - rewrite run_limitLegacy. cbn [fst]. unfold legacy_lims.
    destruct (hasMinLimit ll), (hasMaxLimit ll);
      cbn [app lookup list_lookup mjoin option_join merge fmap option_fmap
           option_map nullish resetSec resetMs fullResetSec fullResetMs];
      rewrite !ceil_div_max; split; try reflexivity;
      try (rewrite (min_info_seconds this ll); reflexivity).
Qed.

(** ** Nothing reported is negative *)

Lemma Math_max_0_not_neg a : (Math_max a 0 < 0)%js = false.
Proof.
  destruct a as [| | |q]; try reflexivity. unfold Math_max, leb, of_Z.
  destruct (Qle_bool q (inject_Z 0)) eqn:E; [reflexivity|].
  unfold ltb, leb. now rewrite E.
Qed.

Lemma Math_max_not_neg a b :
  (a < 0)%js = false -> (b < 0)%js = false -> (Math_max a b < 0)%js = false.
Proof.
  destruct a as [| | |p], b as [| | |q]; simpl; auto.
  now destruct (Qle_bool p q).
Qed.

Lemma Math_min_not_neg a b :
  (a < 0)%js = false -> (b < 0)%js = false -> (Math_min a b < 0)%js = false.
Proof.
  destruct a as [| | |p], b as [| | |q]; simpl; auto.
  now destruct (Qle_bool p q).
Qed.

Lemma not_neg_fin q : (Fin q < 0)%js = false -> (0 <= q)%Q.
Proof.
  unfold ltb, leb, of_Z. destruct (Qle_bool q _) eqn:E; simpl.
  - rewrite negb_false_iff. apply Qle_bool_iff.
  - intros _. now apply Qle_bool_iff, Qle_bool_total.
Qed.

Lemma ceil_div_not_neg a :
  (a < 0)%js = false -> (Math_ceil (a / 1000) < 0)%js = false.
Proof.
  destruct a as [| | |q]; try reflexivity; try discriminate.
  intros H. apply not_neg_fin in H. rewrite ceil_div_fin, ltb_Z.
  apply Z.ltb_ge. change 0 with (Qceiling (0 / inject_Z 1000)).
  now apply Qceiling_div_le.
Qed.

Lemma bucket_info_not_neg this limit factor counter :
  let info := bucket_info this limit factor counter in
  (remaining info < 0)%js = false /\ (resetMs info < 0)%js = false /\
  (resetSec info < 0)%js = false.
Proof.
  assert (H : (bucket_resetMs this limit factor counter < 0)%js = false).
  { unfold bucket_resetMs. destruct (_ > _)%js; [reflexivity|].
    apply Math_max_0_not_neg. }
  simpl. repeat split; [apply Math_max_0_not_neg | exact H |].
  now apply ceil_div_not_neg.
Qed.

Lemma min_info_not_neg this limit factor counter :
  let info := min_info this limit factor counter in
  (remaining info < 0)%js = false /\ (resetMs info < 0)%js = false /\
  (resetSec info < 0)%js = false.
Proof.
  assert (H : (min_resetMs this limit factor counter < 0)%js = false).
  { unfold min_resetMs.
    destruct (min_remaining this limit factor counter < 1)%js; [|reflexivity].
    apply Math_max_0_not_neg. }
  simpl. repeat split; [apply Math_max_0_not_neg | exact H |].
  destruct (min_remaining this limit factor counter < 1)%js; [|reflexivity].
  apply ceil_div_not_neg, Math_max_0_not_neg.
Qed.

(** X9: whatever the rule, the factor, the clock and the stored state,
    [limit] never reports a negative [remaining], [resetMs] or [resetSec]. *)
Theorem nothing_negative this l actor factor r :
  let info := (run (limit this l actor factor) r).1 in
  (remaining info < 0)%js = false /\ (resetMs info < 0)%js = false /\
  (resetSec info < 0)%js = false.
Proof.
  unfold limit. destruct (disabled this); [now repeat split|].
  destruct l as [lb|ll].
  - rewrite run_limitBucket. apply bucket_info_not_neg.
  - rewrite run_limitLegacy. cbn [fst]. unfold legacy_lims.
    pose proof (min_info_not_neg this ll (factor ?? of_Z 1)%js) as Hm.
    pose proof (bucket_info_not_neg this (legacy_bucket ll)
                  (factor ?? of_Z 1)%js) as Hb.
    cbv zeta in Hm, Hb.
    destruct (hasMinLimit ll), (hasMaxLimit ll);
      cbn [app lookup list_lookup mjoin option_join merge fmap option_fmap
           option_map nullish remaining resetSec resetMs];
      repeat split;
      first [ apply Math_min_not_neg | apply Math_max_not_neg ];
      try reflexivity; try apply Hm; apply Hb.
Qed.

(** ** A blocked call has nothing remaining *)

Lemma reached_nothing_left a b :
  isFinite a || isFinite b = true -> (a >= b)%js = true ->
  Math_max (b - a)%js 0 = 0.
Proof.
  destruct a as [| | |p], b as [| | |q]; try discriminate; try reflexivity.
  intros _ H. unfold geb, leb in H. unfold sub, fin, Math_max, leb, of_Z.
  replace (Qle_bool (Qred (q - p)) (inject_Z 0)) with true; [reflexivity|].
  symmetry. apply Qle_bool_iff. rewrite Qred_correct.
  apply Qle_bool_iff in H. unfold Qminus.
  rewrite <- (Qplus_opp_r p). now apply Qplus_le_l.
Qed.

Lemma expire_finite this limit factor k r :
  isFinite (c (expire this limit factor (read_counter k r))) = true.
Proof.
  destruct (read_counter_finite k r) as (tq & cq & ->). unfold expire.
  cbn [c t]. now repeat destruct (_ >= _)%js.
Qed.

(** X10: a call that the min-interval limiter blocks returns
    [remaining = 0] and, as its [resetMs] and [resetSec], the full reset
    times; a call that the bucket limiter blocks returns [remaining = 0]
    whenever the capacity [size * factor] is finite. *)
Theorem blocked_nothing_remaining (actor : string) :
  (forall this ll factor r info,
     (run (limitMin this ll actor factor) r).1 = Some info ->
     blocked info = true ->
     remaining info = 0 /\ resetMs info = fullResetMs info /\
     resetSec info = fullResetSec info) /\
  (forall this lb factor r,
     let info := (run (limitBucket this lb actor factor) r).1 in
     isFinite (size lb * factor)%js = true ->
     blocked info = true -> remaining info = 0).
Proof.
  split.
  - intros this ll factor r info. rewrite run_limitMin. cbv zeta. cbn [fst].
    intros [= <-]. unfold min_info. cbn [blocked remaining resetMs resetSec
      fullResetMs fullResetSec]. intros Hb.
    assert (Hr : min_remaining this ll factor
                   (read_counter (createLimitKey (Legacy ll) actor (Some "min"))
                      r) = 0).
    { unfold min_remaining, min_next. rewrite Hb. cbn [negb].
      apply reached_nothing_left; [|exact Hb].
      now rewrite expire_finite. }
    unfold min_resetMs. rewrite Hr. now repeat split.
  - intros this lb factor r info Hfin. subst info. rewrite run_limitBucket.
    cbv zeta. cbn [fst]. unfold bucket_info. cbn [blocked remaining].
    intros Hb. unfold bucket_remaining, bucket_next. rewrite Hb. cbn [negb].
    apply reached_nothing_left; [|exact Hb].
    rewrite Hfin. apply orb_true_r.
Qed.

Lemma blocked_nothing_remaining_witness :
  let r :=
    {| data := {[ "rl_alice_k" := {| value := stored 7000 9; px := 9000 |} ]};
       commands := [] |} in
  remaining (run (limitBucket (service_at 7000) (bucket5 "k") "alice" 1) r).1
  = 0.
Proof.
  intros r. destruct (blocked_nothing_remaining "alice") as [_ H].
  apply (H (service_at 7000) (bucket5 "k") 1 r); reflexivity.
Defined.

(** ** The count of a bucket stays within its capacity *)

Lemma holds_at_read k T n r :
  holds_at k T n r ->
  exists T', read_counter k r = {| t := of_Z T'; c := of_Z n |} /\
             (0 < n -> T' = T).
Proof.
  intros [[-> H]|(e & He & Hv)].
  - exists 0. split; [now apply read_absent | lia].
  - exists T. split; [now apply (read_stored _ _ e) | reflexivity].
Qed.

Lemma drips_bounds n X T dr ds :
  0 <= n -> 0 < dr -> 0 <= ds -> (0 < n -> T <= X) ->
  let d := if 0 <? n then Z.max (n - (X - T) / dr * ds) 0 else n in
  0 <= d <= n.
Proof.
  intros Hn Hdr Hds HT d. subst d.
  destruct (Z.ltb_spec 0 n) as [Hpos|]; [|lia].
  assert (0 <= (X - T) / dr) by (apply Z.div_pos; lia).
  nia.
Qed.

(** X11: for a bucket whose capacity [size * factor], [dripRate] and
    [dripSize] are integers, with [dripRate > 0] and [dripSize >= 0], and a
    stored integer count between 0 and the capacity [cap], stamped at a time
    that is not in the future; the capacity and the times, in integer
    milliseconds, lie between 0 and [2^53 - 1].  The count stays between 0
    and [cap] after a call, and the call returns [remaining] equal to [cap]
    minus the count it leaves.  A blocked call finds the bucket exactly full
    and leaves it as it is; a call that passes stores a count of at least 1,
    at most one higher than before, stamped with the time of the call. *)
Theorem bucket_count_bounded this lb actor factor X T n cap dr ds r :
  let k := createLimitKey (Bucket lb) actor None in
  now this = of_Z X ->
  (size lb * factor)%js = of_Z cap ->
  (dripRate lb ?? of_Z 1000)%js = of_Z dr -> 0 < dr ->
  (dripSize lb ?? of_Z 1)%js = of_Z ds -> 0 <= ds ->
  holds_at k T n r -> 0 <= n <= cap -> cap <= 2 ^ 53 - 1 ->
  0 <= T <= X -> X <= 2 ^ 53 - 1 ->
  let call := run (limitBucket this lb actor factor) r in
  exists n',
    0 <= n' <= cap /\ n' <= n + 1 /\
    remaining call.1 = of_Z (cap - n') /\
    if blocked call.1
    then n' = n /\ n = cap /\ data call.2 = data r
    else 1 <= n' /\ holds_at k X n' call.2.
Proof.
  intros k Hnow Hcap Hdr Hdr0 Hds Hds0 Hh Hn _ HT _ call. subst call.
  destruct (holds_at_read _ _ _ _ Hh) as (T' & Hread & HT').
  pose proof (drips_bounds n X T' dr ds ltac:(lia) Hdr0 Hds0
                ltac:(intros; rewrite HT'; lia)) as Hd.
  cbv zeta in Hd.
  set (d := if 0 <? n then Z.max (n - (X - T') / dr * ds) 0 else n) in *.
  destruct (Z.le_gt_cases cap d) as [Hle|Hlt].
  - destruct (bucket_call_blocked this lb actor factor X T' n cap dr ds r Hnow
                Hcap Hdr ltac:(lia) Hds Hread d eq_refl Hle) as (-> & -> & ->).
    exists n. repeat split; try lia. f_equal. lia.
  - destruct (bucket_call_free this lb actor factor X T' n cap dr ds r Hnow
                Hcap Hdr ltac:(lia) Hds Hread d eq_refl Hlt)
      as (-> & -> & px & ->).
    exists (d + 1). repeat split; try lia; [f_equal; lia|].
    right. eexists. split; [apply lookup_insert_eq | reflexivity].
Qed.

Lemma bucket_count_bounded_witness :
  let r :=
    {| data := {[ "rl_alice_k" := {| value := stored 7000 5; px := 5000 |} ]};
       commands := [] |} in
  let call := run (limitBucket (service_at 9500) (bucket5 "k") "alice" 1) r in
  exists n',
    0 <= n' <= 5 /\ n' <= 5 + 1 /\ remaining call.1 = of_Z (5 - n') /\
    if blocked call.1
    then n' = 5 /\ 5 = 5 /\ data call.2 = data r
    else 1 <= n' /\ holds_at "rl_alice_k" 9500 n' call.2.
Proof.
  intros r call.
  apply (bucket_count_bounded (service_at 9500) (bucket5 "k") "alice" 1 9500
           7000 5 5 1000 1 r); try reflexivity; try lia.
  right. eexists. split; reflexivity.
Defined.

(** ** Waiting [resetMs] is enough, and needed *)

Section bucket_reset.
Variable this : SkRateLimiterService.
Variable limit : RateLimit.
Variable actor : string.
Variable factor : number.
Variables X T n cap dr ds : Z.
Variable r : Redis.
Hypothesis Hnow : now this = of_Z X.
Hypothesis Hcap : (size limit * factor)%js = of_Z cap.
Hypothesis Hrate : (dripRate limit ?? of_Z 1000)%js = of_Z dr.
Hypothesis Hrate0 : dr <> 0.
Hypothesis Hsize : (dripSize limit ?? of_Z 1)%js = of_Z ds.
Hypothesis Hread :
  read_counter (createLimitKey (Bucket limit) actor None) r =
  {| t := of_Z T; c := of_Z n |}.
Variable d : Z.
Hypothesis Hd : d = if 0 <? n then Z.max (n - (X - T) / dr * ds) 0 else n.

Lemma bucket_resetMs_blocked :
  cap <= d ->
  resetMs (run (limitBucket this limit actor factor) r).1 =
  of_Z (Z.max (dr - (X - T)) 0).
Proof.
  intros Hle.
  pose proof (drip_Z this limit actor X T n dr ds r Hnow Hrate Hrate0 Hsize
                Hread d Hd) as Hdrip.
  rewrite run_limitBucket. cbv zeta. cbn [fst]. unfold bucket_info.
  cbn [resetMs]. unfold bucket_resetMs, bucket_remaining, bucket_next,
    bucket_blocked.
  rewrite Hdrip, Hcap. cbn [c]. rewrite geb_Z.
  destruct (Z.leb_spec cap d); [|lia]. cbn [negb c t].
  rewrite Hrate, Hnow. autorewrite with js_Z.
  destruct (Z.ltb_spec 0 (Z.max (cap - d) 0)); [lia|reflexivity].
Qed.
End bucket_reset.



Lemma maxCalls_fin f : maxCalls (Fin f) = of_Z (Z.max (Qceiling f) 1).
Proof. unfold maxCalls. cbn [Math_ceil]. apply Math_max_Z. Qed.

Section min_reset.
Variable this : SkRateLimiterService.
Variable limit : LegacyRateLimit.
Variable actor : string.
Variable factor : number.
Variables X T n mc mi : Z.
Variable r : Redis.
Hypothesis Hnow : now this = of_Z X.
Hypothesis Hmax : maxCalls factor = of_Z mc.
Hypothesis Hread :
  read_counter (createLimitKey (Legacy limit) actor (Some "min")) r =
  {| t := of_Z T; c := of_Z n |}.
Hypothesis Hmin : minInterval limit = Some (of_Z mi).

Lemma min_resetMs_blocked :
  mc <= n -> X - T < mi ->
  resetMs <$> (run (limitMin this limit actor factor) r).1 =
  Some (of_Z (mi - (X - T))).
Proof.
  intros Hn Hi.
  pose proof (expire_Z this limit actor factor X T n mc r Hnow Hmax Hread mi
                Hmin) as He.
  unfold after_expiry in He.
  destruct (Z.leb_spec mc n); [|lia].
  destruct (Z.leb_spec mi (X - T)); [lia|]. cbn [andb] in He.
  rewrite run_limitMin. cbv zeta. cbn [fst fmap option_fmap option_map].
  unfold min_info. cbn [resetMs].
  unfold min_resetMs, min_remaining, min_fullResetMs, min_next, min_blocked.
  rewrite He, Hmax. cbn [c]. rewrite geb_Z.
  destruct (Z.leb_spec mc n); [|lia]. cbn [negb c t].
  rewrite Hmin, Hnow. cbn [ToNumber nullish]. autorewrite with js_Z.
  destruct (Z.ltb_spec (Z.max (mc - n) 0) 1); [|lia].
  do 2 f_equal. lia.
Qed.
End min_reset.

(** X13: for an integer [minInterval] and integer times in milliseconds,
    all between 0 and [2^53 - 1]: with at least
    [maxCalls = max(ceil(factor), 1)] calls recorded at [T], the
    min-interval limiter blocks a call at a time [X] with
    [T <= X < T + minInterval] and returns
    [resetMs = T + minInterval - X].  With no other call in between, a later
    call is still blocked before [X + resetMs] and passes from
    [X + resetMs] on. *)
Theorem min_reset_exact this this' ll actor f X X' T n mi r e :
  let k := createLimitKey (Legacy ll) actor (Some "min") in
  let mc := Z.max (Qceiling f) 1 in
  now this = of_Z X -> now this' = of_Z X' ->
  minInterval ll = Some (of_Z mi) -> mi <= 2 ^ 53 - 1 ->
  data r !! k = Some e -> value e = stored T n ->
  mc <= n -> 0 <= T <= X -> X - T < mi -> X <= X' -> X' <= 2 ^ 53 - 1 ->
  let call := run (limitMin this ll actor (Fin f)) r in
  let later := run (limitMin this' ll actor (Fin f)) call.2 in
  let wait := T + mi - X in
  blocked <$> call.1 = Some true /\ resetMs <$> call.1 = Some (of_Z wait) /\
  (X' < X + wait -> blocked <$> later.1 = Some true) /\
  (X + wait <= X' -> blocked <$> later.1 = Some false).
Proof.
  intros k mc Hnow Hnow' Hmi _ He Hv Hn _ HX HX' _ call later wait.
  subst call later wait.
  pose proof (read_stored _ _ _ _ _ He Hv) as Hread.
  destruct (min_call_blocked this ll actor (Fin f) X T n mc r Hnow
              (maxCalls_fin f) Hread mi Hmi Hn HX) as (Hb & Hr).
  rewrite (min_resetMs_blocked this ll actor (Fin f) X T n mc mi r Hnow
             (maxCalls_fin f) Hread Hmi Hn HX).
  fold k in Hr. rewrite Hr.
  split; [exact Hb|]. split; [do 2 f_equal; lia|]. split; intros Hw.
  - now destruct (min_call_blocked this' ll actor (Fin f) X' T n mc
                    (redis_get k r).2 Hnow' (maxCalls_fin f) Hread mi Hmi Hn
                    ltac:(lia)).
  - now destruct (min_call_reset this' ll actor (Fin f) X' T n mc
                    (redis_get k r).2 Hnow' (maxCalls_fin f) Hread mi Hmi
                    ltac:(lia) ltac:(lia)) as (_ & H & _).
Qed.

Lemma min_reset_exact_witness :
  let r :=
    {| data :=
         {[ "rl_alice_k_min" := {| value := stored 7000 1; px := 5000 |} ]};
       commands := [] |} in
  let call := run (limitMin (service_at 9000) (min_only "k" 5000) "alice" 1) r in
  let later :=
    run (limitMin (service_at 12000) (min_only "k" 5000) "alice" 1) call.2 in
  blocked <$> call.1 = Some true /\ resetMs <$> call.1 = Some (of_Z 3000) /\
  blocked <$> later.1 = Some false.
Proof.
  intros r call later.
  destruct (min_reset_exact (service_at 9000) (service_at 12000)
              (min_only "k" 5000) "alice" 1 9000 12000 7000 1 5000 r
              {| value := stored 7000 1; px := 5000 |}
              eq_refl eq_refl eq_refl ltac:(lia) eq_refl eq_refl
              ltac:(vm_compute; discriminate) ltac:(lia) ltac:(lia) ltac:(lia)
              ltac:(lia))
    as (H1 & H2 & _ & H4).
  split; [exact H1|]. split; [exact H2|]. apply H4. lia.
Defined.

(** ** The expiry of a bucket counter loses nothing *)

Lemma ceil_div_Z (a b : Z) :
  b <> 0 -> Math_ceil (of_Z a / of_Z b)%js = of_Z (- (- a / b)).
Proof.
  intros Hb. unfold div, of_Z.
  change (Qeq_bool (inject_Z b) 0) with (Qeq_bool (inject_Z b) (inject_Z 0)).
  rewrite (Qeq_bool_Z b 0).
  destruct (Z.eqb_spec b 0) as [|_]; [contradiction|].
  unfold fin, Math_ceil, of_Z.
  rewrite (Qceiling_comp _ _ (Qred_correct _)). unfold Qceiling.
  do 3 f_equal. rewrite Zdiv_Qdiv. apply Qfloor_comp.
  rewrite inject_Z_opp. unfold Qdiv. ring.
Qed.

Lemma drips_empty_after_ttl n X T dr ds :
  0 <= n -> 0 < dr -> 1 <= ds -> T + - (- n / ds) * dr <= X ->
  (if 0 <? n then Z.max (n - (X - T) / dr * ds) 0 else n) = 0.
Proof.
  intros Hn Hdr Hds HX. destruct (Z.ltb_spec 0 n); [|lia].
  assert (Hq : - (- n / ds) <= (X - T) / dr)
    by (apply Z.div_le_lower_bound; lia).
  pose proof (Z.div_mod (- n) ds ltac:(lia)).
  pose proof (Z.mod_pos_bound (- n) ds ltac:(lia)).
  nia.
Qed.

Lemma bucket_info_ext this lb factor c1 c2 :
  c (drip this lb c1) = c (drip this lb c2) ->
  bucket_blocked this lb factor c1 = false ->
  bucket_blocked this lb factor c2 = false /\
  bucket_next this lb factor c1 = bucket_next this lb factor c2 /\
  bucket_info this lb factor c1 = bucket_info this lb factor c2.
Proof.
  intros Hc Hb.
  assert (Hb2 : bucket_blocked this lb factor c2 = false)
    by (unfold bucket_blocked in *; now rewrite <- Hc).
  assert (Hn : bucket_next this lb factor c1 = bucket_next this lb factor c2)
    by (unfold bucket_next, bump; now rewrite Hb, Hb2, Hc).
  repeat split; try assumption.
  unfold bucket_info, bucket_fullResetMs, bucket_resetMs, bucket_remaining.
  now rewrite Hb, Hb2, Hn.
Qed.

Section bucket_ttl.
Variable this : SkRateLimiterService.
Variable limit : RateLimit.
Variable actor : string.
Variable factor : number.
Variables X T n cap dr ds : Z.
Variable r : Redis.
Hypothesis Hnow : now this = of_Z X.
Hypothesis Hcap : (size limit * factor)%js = of_Z cap.
Hypothesis Hrate : (dripRate limit ?? of_Z 1000)%js = of_Z dr.
Hypothesis Hrate0 : dr <> 0.
Hypothesis Hsize : (dripSize limit ?? of_Z 1)%js = of_Z ds.
Hypothesis Hsize0 : ds <> 0.
Hypothesis Hread :
  read_counter (createLimitKey (Bucket limit) actor None) r =
  {| t := of_Z T; c := of_Z n |}.
Variable d : Z.
Hypothesis Hd : d = if 0 <? n then Z.max (n - (X - T) / dr * ds) 0 else n.

Lemma bucket_fullResetMs_free :
  d < cap ->
  fullResetMs (run (limitBucket this limit actor factor) r).1 =
  of_Z (- (- (d + 1) / ds) * dr).
Proof.
  intros Hlt.
  pose proof (drip_Z this limit actor X T n dr ds r Hnow Hrate Hrate0 Hsize
                Hread d Hd) as Hdrip.
  rewrite run_limitBucket. cbv zeta. cbn [fst]. unfold bucket_info.
  cbn [fullResetMs]. unfold bucket_fullResetMs, bucket_next, bucket_blocked.
  rewrite Hdrip, Hcap. cbn [c]. rewrite geb_Z.
  destruct (Z.leb_spec cap d); [lia|]. cbn [negb]. unfold bump. cbn [c].
  rewrite Hsize, Hrate, add_Z, ceil_div_Z, mul_Z by assumption. reflexivity.
Qed.
End bucket_ttl.



(** ** A larger factor is never stricter *)

Lemma Qle_bool_trans p q x :
  (p <= q)%Q -> Qle_bool q x = true -> Qle_bool p x = true.
Proof.
  intros H Hq. apply Qle_bool_iff. apply Qle_bool_iff in Hq.
  now apply Qle_trans with q.
Qed.

Lemma capacity_mono s f f' x :
  (0 <= s)%Q -> (f <= f')%Q ->
  (x >= Fin s * Fin f')%js = true -> (x >= Fin s * Fin f)%js = true.
Proof.
  intros Hs Hf. destruct x as [| | |q]; try discriminate; try reflexivity.
  unfold geb, mul, fin, leb. apply Qle_bool_trans.
  rewrite !Qred_correct, !(Qmult_comm s). now apply Qmult_le_compat_r.
Qed.

(** X15: raising [factor] never turns a call that passes into a blocked
    one.  For the bucket limiter with a finite [size >= 0] and for the
    min-interval limiter, if a call with the factor [f'] is blocked, the
    same call with any smaller finite factor [f] is blocked too. *)
Theorem factor_lenient (actor : string) :
  (forall this lb f f' r s,
     size lb = Fin s -> (0 <= s)%Q -> (f <= f')%Q ->
     blocked (run (limitBucket this lb actor (Fin f')) r).1 = true ->
     blocked (run (limitBucket this lb actor (Fin f)) r).1 = true) /\
  (forall this ll f f' r,
     (f <= f')%Q ->
     blocked <$> (run (limitMin this ll actor (Fin f')) r).1 = Some true ->
     blocked <$> (run (limitMin this ll actor (Fin f)) r).1 = Some true).
Proof.
  split.
  - intros this lb f f' r s Hs Hs0 Hf. rewrite !run_limitBucket. cbv zeta.
    cbn [fst]. unfold bucket_info. cbn [blocked]. unfold bucket_blocked.
    rewrite Hs. now apply capacity_mono.
  - intros this ll f f' r Hf. rewrite !run_limitMin. cbv zeta.
    cbn [fst fmap option_fmap option_map]. unfold min_info. cbn [blocked].
    unfold min_blocked, expire. rewrite !maxCalls_fin.
    destruct (read_counter_finite
                (createLimitKey (Legacy ll) actor (Some "min")) r)
      as (tq & cq & ->). cbn [c t].
    repeat match goal with
           | |- context [c (if ?b then ?x else ?y)] =>
               replace (c (if b then x else y)) with (if b then c x else c y)
                 by now destruct b
           end.
    cbn [c]. generalize (now this - Fin tq >= ToNumber (minInterval ll))%js.
    intros cl. unfold geb, leb, of_Z.
    set (mc := Z.max (Qceiling f) 1). set (mc' := Z.max (Qceiling f') 1).
    assert (Hmc : (inject_Z mc <= inject_Z mc')%Q).
    { rewrite <- Zle_Qle. apply Qceiling_resp_le in Hf. lia. }
    assert (H0 : Qle_bool (inject_Z mc') (inject_Z 0) = false).
    { rewrite Qle_bool_Z. apply Z.leb_gt. lia. }
    intros [= H]. f_equal. revert H.
    destruct (Qle_bool (inject_Z mc') cq) eqn:E'.
    + rewrite (Qle_bool_trans _ _ _ Hmc E').
      destruct cl; [now rewrite H0|].
      intros _. exact (Qle_bool_trans _ _ _ Hmc E').
    + congruence.
Qed.

Lemma factor_lenient_witness :
  let r :=
    {| data := {[ "rl_alice_k" := {| value := stored 7000 5; px := 5000 |} ]};
       commands := [] |} in
  blocked (run (limitBucket (service_at 7000) (bucket5 "k") "alice" (Fin (1 # 2)))
             r).1 = true.
Proof.
  intros r. destruct (factor_lenient "alice") as [H _].
  apply (H (service_at 7000) (bucket5 "k") (1 # 2)%Q 1%Q r (inject_Z 5));
    try reflexivity; discriminate.
Defined.

(** ** The rate a bucket lets through *)

Lemma div_superadditive a b dr :
  0 <= a -> 0 <= b -> 0 < dr -> a / dr + b / dr <= (a + b) / dr.
Proof.
  intros Ha Hb Hdr.
  pose proof (Z.div_mod a dr ltac:(lia)). pose proof (Z.mod_pos_bound a dr Hdr).
  pose proof (Z.div_mod b dr ltac:(lia)). pose proof (Z.mod_pos_bound b dr Hdr).
  apply Z.div_le_lower_bound; [lia|]. nia.
Qed.

Lemma final_time_ascending T times :
  ascending_from T times -> T <= final_time T times.
Proof.
  revert T. induction times as [|X rest IH]; intros T; simpl; [lia|].
  intros [HX Hrest]. specialize (IH X Hrest). lia.
Qed.

Lemma final_time_mono T X times :
  T <= X -> ascending_from X times -> final_time T times <= final_time X times.
Proof. destruct times; simpl; lia. Qed.

Lemma ascending_from_weaken T X times :
  T <= X -> ascending_from X times -> ascending_from T times.
Proof. destruct times; simpl; [trivial|]. intros ? [? ?]. split; [lia|trivial]. Qed.

Lemma passed_cons info infos :
  passed (info :: infos) = (if blocked info then 0 else 1) + passed infos.
Proof.
  unfold passed. rewrite filter_cons.
  destruct (decide (blocked info = false)) as [->|H]; simpl.
  - lia.
  - now destruct (blocked info).
Qed.

Lemma holds_at_after_get k k' T n r :
  holds_at k T n r -> holds_at k T n (redis_get k' r).2.
Proof. exact id. Qed.

Section bucket_rate.
Variable this : SkRateLimiterService.
Variable lb : RateLimit.
Variable actor : string.
Variable factor : number.
Variables cap dr ds : Z.
Hypothesis Hcap : (size lb * factor)%js = of_Z cap.
Hypothesis Hrate : (dripRate lb ?? of_Z 1000)%js = of_Z dr.
Hypothesis Hrate0 : 0 < dr.
Hypothesis Hsize : (dripSize lb ?? of_Z 1)%js = of_Z ds.
Hypothesis Hsize0 : 0 <= ds.

Lemma bucket_step_Z X T n r :
  holds_at (createLimitKey (Bucket lb) actor None) T n r ->
  0 <= n <= cap -> T <= X ->
  let call := run (limitBucket (at_time this X) lb actor factor) r in
  (blocked call.1 = true /\
   holds_at (createLimitKey (Bucket lb) actor None) T n call.2) \/
  (exists d, blocked call.1 = false /\ d < cap /\ 0 <= d /\
             n - (X - T) / dr * ds <= d /\
             holds_at (createLimitKey (Bucket lb) actor None) X (d + 1) call.2).
Proof.
  intros Hh Hn HT call. subst call.
  destruct (holds_at_read _ _ _ _ Hh) as (T' & Hread & HT').
  pose proof (drips_bounds n X T' dr ds ltac:(lia) Hrate0 Hsize0
                ltac:(intros; rewrite HT'; lia)) as Hd.
  cbv zeta in Hd.
  assert (Hlow : n - (X - T) / dr * ds <=
                 if 0 <? n then Z.max (n - (X - T') / dr * ds) 0 else n).
  { destruct (Z.ltb_spec 0 n) as [Hpos|].
    - rewrite (HT' Hpos). lia.
    - assert (0 <= (X - T) / dr) by (apply Z.div_pos; lia). nia. }
  set (d := if 0 <? n then Z.max (n - (X - T') / dr * ds) 0 else n) in *.
  destruct (Z.le_gt_cases cap d) as [Hle|Hlt].
  - destruct (bucket_call_blocked (at_time this X) lb actor factor X T' n cap
                dr ds r eq_refl Hcap Hrate ltac:(lia) Hsize Hread d eq_refl Hle)
      as (-> & _ & ->).
    left. split; [reflexivity | exact Hh].
  - destruct (bucket_call_free (at_time this X) lb actor factor X T' n cap dr
                ds r eq_refl Hcap Hrate ltac:(lia) Hsize Hread d eq_refl Hlt)
      as (-> & _ & px & ->).
    right. exists d. repeat split; try lia.
    right. eexists. split; [apply lookup_insert_eq | reflexivity].
Qed.

Lemma bucket_rate_from times : forall T n r,
  holds_at (createLimitKey (Bucket lb) actor None) T n r ->
  0 <= n <= cap -> ascending_from T times ->
  passed (calls_at this times (fun th => limitBucket th lb actor factor) r).1
  <= cap - n + ds * ((final_time T times - T) / dr).
Proof.
  induction times as [|X rest IH]; intros T n r Hh Hn Hasc.
  - cbn. rewrite Z.sub_diag, Z.div_0_l by lia. unfold passed. simpl. lia.
  - destruct Hasc as [HX Hrest]. cbn [calls_at final_time].
    pose proof (bucket_step_Z X T n r Hh Hn HX) as Hstep. cbv zeta in Hstep.
    destruct (run (limitBucket (at_time this X) lb actor factor) r)
      as [info r1]. cbn [fst snd] in Hstep.
    pose proof (final_time_ascending X rest Hrest) as HF.
    destruct Hstep as [[Hb Hh1]|(d & Hb & Hd & Hd0 & Hlow & Hh1)].
    + specialize (IH T n r1 Hh1 Hn (ascending_from_weaken T X rest HX Hrest)).
      destruct (calls_at this rest _ r1) as [infos r2]. cbn [fst] in *.
      rewrite passed_cons, Hb.
      pose proof (final_time_mono T X rest HX Hrest).
      assert ((final_time T rest - T) / dr <= (final_time X rest - T) / dr)
        by (apply Z.div_le_mono; lia).
      nia.
    + specialize (IH X (d + 1) r1 Hh1 ltac:(lia) Hrest).
      destruct (calls_at this rest _ r1) as [infos r2]. cbn [fst] in *.
      rewrite passed_cons, Hb.
      pose proof (div_superadditive (X - T) (final_time X rest - X) dr
                    ltac:(lia) ltac:(lia) Hrate0) as Hsup.
      replace (X - T + (final_time X rest - X)) with (final_time X rest - T)
        in Hsup by lia.
      nia.
Qed.
End bucket_rate.

(** X16: the rate bound of the leaky bucket.  For a bucket whose capacity
    [size * factor], [dripRate] and [dripSize] are integers, with
    [dripRate > 0] and [dripSize >= 0], holding an integer count [n] between
    0 and the capacity [cap] stamped [T]; the capacity and the times, in
    integer milliseconds, lie between 0 and [2^53 - 1].  Of any calls made
    at times that do not go back from [T], at most
    [cap - n + dripSize * floor((last time - T) / dripRate)] pass. *)
Theorem bucket_rate_bound this lb actor factor cap dr ds times T n r :
  disabled this = false ->
  (size lb * (factor ?? of_Z 1))%js = of_Z cap ->
  (dripRate lb ?? of_Z 1000)%js = of_Z dr -> 0 < dr ->
  (dripSize lb ?? of_Z 1)%js = of_Z ds -> 0 <= ds ->
  holds_at (createLimitKey (Bucket lb) actor None) T n r ->
  0 <= n <= cap -> cap <= 2 ^ 53 - 1 ->
  0 <= T -> ascending_from T times -> final_time T times <= 2 ^ 53 - 1 ->
  passed (calls_at this times (fun th => limit th (Bucket lb) actor factor) r).1
  <= cap - n + ds * ((final_time T times - T) / dr).
Proof.
  intros Hd Hcap Hdr Hdr0 Hds Hds0 Hh Hn _ _ Hasc _.
  replace (calls_at this times (fun th => limit th (Bucket lb) actor factor) r)
    with (calls_at this times
            (fun th => limitBucket th lb actor (factor ?? of_Z 1)%js) r).
  - now apply bucket_rate_from.
  - clear Hh Hasc. revert r.
    induction times as [|X rest IH]; intros r; [reflexivity|].
    cbn [calls_at]. rewrite (limit_Bucket (at_time this X)) by exact Hd.
    destruct (run _ r) as [a r1]. now rewrite IH.
Qed.

Lemma bucket_rate_bound_witness :
  passed
    (calls_at (service_at 0) [7000; 7000; 7000; 7000; 7000; 7000; 7400; 8100]
       (fun th => limit th (Bucket (bucket5 "k")) "alice" None) empty_redis).1
  <= 5 - 0 + 1 * ((8100 - 7000) / 1000).
Proof.
  apply (bucket_rate_bound (service_at 0) (bucket5 "k") "alice" None 5 1000 1
           [7000; 7000; 7000; 7000; 7000; 7000; 7400; 8100] 7000 0 empty_redis);
    try reflexivity; try lia.
  - now left.
  - cbn. lia.
  - cbn. lia.
Defined.

(** ** When two calls share a counter *)

Lemma string_length_app (s1 s2 : string) :
  String.length (s1 +:+ s2) = (String.length s1 + String.length s2)%nat.
Proof. induction s1 as [|a s1 IH]; simpl; [reflexivity|]. now rewrite IH. Qed.

Lemma string_app_inv_tail (s1 s2 t : string) :
  s1 +:+ t = s2 +:+ t -> s1 = s2.
Proof.
  revert s2. induction s1 as [|a s1 IH]; intros [|b s2] H.
  - reflexivity.
  - apply (f_equal String.length) in H. rewrite !string_length_app in H.
    simpl in H. lia.
  - apply (f_equal String.length) in H. rewrite !string_length_app in H.
    simpl in H. lia.
  - simpl in H. injection H as -> H. f_equal. now apply IH.
Qed.

Lemma split_at_underscore (a a' rest rest' : string) :
  occurs underscore a = false -> occurs underscore a' = false ->
  a +:+ "_" +:+ rest = a' +:+ "_" +:+ rest' -> a = a' /\ rest = rest'.
Proof.
  revert a'. induction a as [|x a IH]; intros [|y a'] Ha Ha' H; simpl in *.
  - injection H as H. now split.
  - injection H as <- _. simpl in Ha'. discriminate.
  - injection H as -> _. simpl in Ha. discriminate.
  - injection H as -> H. apply orb_false_elim in Ha as [_ Ha].
    apply orb_false_elim in Ha' as [_ Ha'].
    destruct (IH a' Ha Ha' H) as [-> ->]. now split.
Qed.

(** X17: when the actors contain no underscore, two calls with the same
    subject use the same store key only if they have the same actor and the
    same rule key.  Beyond that the keys do collide: the bucket counter of
    the rule key [k ++ "_min"] is the min-interval counter of the rule key
    [k], and an underscore in the actor can shift the boundary between actor
    and rule key. *)
Theorem createLimitKey_injective :
  (forall l l' actor actor' subject,
     occurs underscore actor = false -> occurs underscore actor' = false ->
     createLimitKey l actor subject = createLimitKey l' actor' subject ->
     actor = actor' /\ limit_key l = limit_key l') /\
  (forall lb ll actor,
     key lb = legacy_key ll +:+ "_min" ->
     createLimitKey (Bucket lb) actor None =
     createLimitKey (Legacy ll) actor (Some "min")) /\
  (forall l l',
     limit_key l = "c" -> limit_key l' = "b_c" ->
     createLimitKey l "a_b" None = createLimitKey l' "a" None).
Proof.
  split; [|split].
  - intros l l' actor actor' subject Ha Ha'. unfold createLimitKey.
    destruct (truthy_string subject); intros H;
      apply (inj (String.app "rl_")) in H;
      destruct (split_at_underscore _ _ _ _ Ha Ha' H) as [-> Hk];
      (split; [reflexivity|]).
    + now apply string_app_inv_tail in Hk.
    + exact Hk.
  - intros lb ll actor Hk. unfold createLimitKey. simpl. rewrite Hk.
    reflexivity.
  - intros l l' Hl Hl'. unfold createLimitKey. simpl. now rewrite Hl, Hl'.
Qed.

Lemma createLimitKey_injective_witness :
  createLimitKey (Bucket (bucket5 "k")) "alice" None <>
  createLimitKey (Bucket (bucket5 "k")) "bob" None.
Proof.
  destruct createLimitKey_injective as [H _]. intros E.
  apply H in E as [E _]; [discriminate | reflexivity | reflexivity].
Defined.

(** ** Writing a counter and reading it back *)

Lemma run_getLimitCounter l actor subject r :
  run (getLimitCounter l actor subject) r =
  (read_counter (createLimitKey l actor subject) r,
   (redis_get (createLimitKey l actor subject) r).2).
Proof.
  unfold getLimitCounter, read_counter. rewrite run_bind. simpl.
  now destruct (value <$> data r !! createLimitKey l actor subject).
Qed.



(** ** A drip rate of zero *)

Lemma Qcompare_Z (a b : Z) : (inject_Z a ?= inject_Z b)%Q = (a ?= b).
Proof. unfold Qcompare. simpl. now rewrite !Z.mul_1_r. Qed.

(** X19: a bucket whose [dripRate] is 0 never blocks.  With a positive
    finite capacity, [dripSize >= 1], and a stored count that is not
    negative and not stamped in the future, the division by the drip rate
    gives NaN (no time elapsed) or Infinity, the count after the drips is
    NaN or 0, and the call passes. *)
Theorem zero_dripRate_never_blocks this lb actor factor X T n ds capq r :
  dripRate lb = Some (of_Z 0) ->
  now this = of_Z X ->
  (dripSize lb ?? of_Z 1)%js = of_Z ds -> 1 <= ds ->
  (size lb * factor)%js = Fin capq -> (0 < capq)%Q ->
  holds_at (createLimitKey (Bucket lb) actor None) T n r ->
  0 <= n -> T <= X ->
  blocked (run (limitBucket this lb actor factor) r).1 = false.
Proof.
  intros Hdr Hnow Hds Hds1 Hcap Hcap0 Hh Hn HT.
  rewrite run_limitBucket. cbv zeta. cbn [fst]. unfold bucket_info.
  cbn [blocked]. unfold bucket_blocked, drip.
  destruct (holds_at_read _ _ _ _ Hh) as (T' & -> & HT'). cbn [c t].
  assert (H0 : (of_Z 0 >= Fin capq)%js = false).
  { unfold geb, leb, of_Z. apply not_true_is_false. intros H.
    apply Qle_bool_iff in H. now apply (Qlt_not_le _ _ Hcap0). }
  rewrite Hcap, gtb_Z.
  destruct (Z.ltb_spec 0 n) as [Hpos|Hz].
  - rewrite (HT' Hpos), Hnow, Hdr, Hds, sub_Z. cbn [nullish c].
    assert (Hdiv : (of_Z (X - T) / of_Z 0)%js = NaN \/
                   (of_Z (X - T) / of_Z 0)%js = Infinity).
    { unfold div, of_Z. change (Qeq_bool (inject_Z 0) 0) with true. cbv iota.
      change 0%Q with (inject_Z 0). rewrite Qcompare_Z.
      destruct (Z.compare_spec (X - T) 0); [now left | lia | now right]. }
    destruct Hdiv as [-> | ->]; cbn [Math_floor].
    + reflexivity.
    + replace (Infinity * of_Z ds)%js with Infinity.
      * exact H0.
      * unfold mul, sgn, of_Z. change 0%Q with (inject_Z 0).
        rewrite Qcompare_Z.
        destruct (Z.compare_spec ds 0); [lia | lia | reflexivity].
  - cbn [c]. replace n with 0 by lia. exact H0.
Qed.

Lemma zero_dripRate_never_blocks_witness :
  let lb :=
    {| key := "k"; size := 5; dripRate := Some (of_Z 0); dripSize := None |} in
  let r :=
    {| data := {[ "rl_alice_k" := {| value := stored 7000 9; px := 0 |} ]};
       commands := [] |} in
  blocked (run (limitBucket (service_at 7000) lb "alice" 1) r).1 = false.
Proof.
  intros lb r.
  apply (zero_dripRate_never_blocks (service_at 7000) lb "alice" 1 7000 7000 9
           1 (inject_Z 5) r); try reflexivity; try lia.
  right. eexists. split; reflexivity.
Defined.

(** ** The capacity is exact *)

Lemma bucket_outcomes_lookup cap m : forall n (i : nat),
  (i < m)%nat ->
  bucket_outcomes cap m n !! i =
  Some (cap <=? n + Z.of_nat i,
        of_Z (Z.max (cap - (n + Z.of_nat i) - 1) 0)).
Proof.
  induction m as [|m IH]; intros n i Hi; [lia|]. cbn [bucket_outcomes].
  destruct (Z.leb_spec cap n) as [Hle|Hlt].
  - destruct i as [|i].
    + cbn. rewrite Z.add_0_r. destruct (Z.leb_spec cap n); [|lia].
      do 3 f_equal. lia.
    + change ((?x :: ?l) !! S i) with (l !! i). rewrite (IH n i) by lia.
      destruct (Z.leb_spec cap (n + Z.of_nat i)); [|lia].
      destruct (Z.leb_spec cap (n + Z.of_nat (S i))); [|lia].
      do 3 f_equal. lia.
  - destruct i as [|i].
    + cbn. rewrite Z.add_0_r. destruct (Z.leb_spec cap n); [lia|].
      do 3 f_equal. lia.
    + change ((?x :: ?l) !! S i) with (l !! i). rewrite (IH (n + 1) i) by lia.
      replace (n + 1 + Z.of_nat i) with (n + Z.of_nat (S i)) by lia.
      reflexivity.
Qed.

Lemma bucket_outcomes_length cap m : forall n,
  length (bucket_outcomes cap m n) = m.
Proof.
  induction m as [|m IH]; intros n; [reflexivity|]. simpl.
  destruct (cap <=? n); simpl; now rewrite IH.
Qed.



(** ** What a legacy rule reports *)

Lemma Math_min_1_le a : (Math_min a 1 > 1)%js = false.
Proof.
  destruct a as [| | |q]; try reflexivity. unfold Math_min, leb, of_Z.
  destruct (Qle_bool q (inject_Z 1)) eqn:E; unfold gtb, ltb, leb;
    [now rewrite E, andb_false_r | reflexivity].
Qed.

Lemma Math_max_0_id a :
  canonical a -> (a < 0)%js = false -> Math_max a 0 = a.
Proof.
  destruct a as [| | |q]; try reflexivity; try discriminate.
  intros Hc Hn. unfold Math_max, leb, of_Z.
  destruct (Qle_bool q (inject_Z 0)) eqn:E; [|reflexivity].
  unfold of_Z. f_equal. symmetry. apply canonical_eq; auto using Qred_Z.
  apply Qle_antisym; [now apply Qle_bool_iff | now apply not_neg_fin].
Qed.

(** X21: a legacy rule with [max] and [duration] but no [minInterval]
    answers like the bucket built from it, except that the merge caps
    [remaining] at 1: the same [blocked], [resetMs] and [resetSec], the
    bucket's [remaining] cut to at most 1, and the same commands and stored
    data. *)
Theorem legacy_max_only this l actor factor r :
  disabled this = false ->
  hasMinLimit l = false ->
  hasMaxLimit l = true ->
  let call := run (limit this (Legacy l) actor factor) r in
  let b := run (limit this (Bucket (legacy_bucket l)) actor factor) r in
  blocked call.1 = blocked b.1 /\
  remaining call.1 = Math_min (remaining b.1) 1 /\
  (remaining call.1 > 1)%js = false /\
  resetMs call.1 = resetMs b.1 /\ resetSec call.1 = resetSec b.1 /\
  call.2 = b.2.
Proof.
  intros Hd Hmin Hmax call b. subst call b.
  rewrite limit_Legacy, limit_Bucket by assumption.
  rewrite run_limitLegacy, run_limitBucket. cbn [fst snd].
  unfold legacy_lims, legacy_after. rewrite Hmin, Hmax.
  cbn [app lookup list_lookup mjoin option_join].
  set (info := bucket_info _ _ _ _).
  destruct (canonical_bucket_info this (legacy_bucket l) (factor ?? of_Z 1)%js
    (read_counter (createLimitKey (Bucket (legacy_bucket l)) actor None) r))
    as (_ & Hsec & Hms & _).
  destruct (bucket_info_not_neg this (legacy_bucket l) (factor ?? of_Z 1)%js
    (read_counter (createLimitKey (Bucket (legacy_bucket l)) actor None) r))
    as (_ & Nms & Nsec).
  fold info in Hsec, Hms, Nms, Nsec.
  unfold merge. cbn [fmap option_fmap option_map nullish js_or blocked
    remaining resetMs resetSec].
  repeat split.
  - now destruct (blocked info).
  - apply Math_min_1_le.
  - now apply Math_max_0_id.
  - now apply Math_max_0_id.
Qed.

Lemma legacy_max_only_witness :
  let l := {| legacy_key := "k"; legacy_type := type_legacy;
              duration := Some (of_Z 5000); max := Some (of_Z 5);
              minInterval := None |} in
  remaining (run (limit (service_at 7000) (Legacy l) "alice" None)
               empty_redis).1 = 1 /\
  remaining (run (limit (service_at 7000) (Bucket (legacy_bucket l)) "alice"
               None) empty_redis).1 = 4.
Proof.
  intros l. split; [|reflexivity].
  rewrite (proj1 (proj2 (legacy_max_only (service_at 7000) l "alice" None
             empty_redis eq_refl eq_refl eq_refl))).
  reflexivity.
Defined.
